(** * Interview scheduler: the assignment engines and their specification

    A shallow embedding of the scheduling engines of the repository:
    - [AdvancedScheduler]: [advanced_scheduler.py], the two-track greedy
      engine, its conflict analyser, the gap score and the
      randomized-restart optimizer;
    - [ScheduleOptimizer]: [schedule_optimizer.py], the single-track
      greedy engine and the backtracking search;
    - [ExactSolver]: [core/scheduler_engine.py], the constraint model handed
      to the CP solver and the extraction of a schedule from its answer;
    - [MaxTeams]: the engine of [advanced_scheduler.py] that follows each
      team's own order of slots;
    - [Reports]: queries of [core/models.py] and [schedule_optimizer.py].

    The facts about each part are in [AdvancedFacts], [OptimizerFacts],
    [ExactFacts] and [Containment].

    Python dictionaries are finite maps ([gmap]), lists are lists, objects
    that are mutated in place are threaded through the functions as explicit
    state. *)

From stdpp Require Import gmap strings list fin_maps sorting.
From Stdlib Require Import Lia Ascii.

Local Open Scope string_scope.

(** ** Shared helpers *)

(** Python's [sorted(xs, key=k)] is a stable sort.  A stable sort by key is
    determined by its input; it is written here as the insertion sort that
    puts an element in front of the first element whose key is not
    smaller. *)
Fixpoint insert_by_key {A} (key : A → nat) (x : A) (l : list A) : list A :=
  match l with
  | [] => [x]
  | y :: l' =>
      if decide (key x ≤ key y)%nat then x :: y :: l'
      else y :: insert_by_key key x l'
  end.

Definition sorted_by_key {A} (key : A → nat) (l : list A) : list A :=
  foldr (insert_by_key key) [] l.

(** Python truthiness of an [Optional[str]]: [None] and the empty string are
    both false. *)
Definition truthy (o : option string) : bool :=
  match o with
  | Some s => negb (String.eqb s EmptyString)
  | None => false
  end.

(** [s.split(" ", 1)]: the part before the first space and the part after
    it. *)
Fixpoint split_space (s : string) : string * string :=
  match s with
  | EmptyString => (EmptyString, EmptyString)
  | String c rest =>
      if Ascii.eqb c " "%char then (EmptyString, rest)
      else let '(a, b) := split_space rest in (String c a, b)
  end.

(** * advanced_scheduler.py *)
Module AdvancedScheduler.

(** The two interview groups, ["A"] and ["B"]. *)
Inductive Group := GroupA | GroupB.

#[export] Instance Group_eq_dec : EqDecision Group.
Proof. solve_decision. Defined.

(** An entry of [conflicting_teams]: the f-strings [f"{name}(A조)"] and
    [f"{name}(B조)"], kept as the pair they are built from. *)
Definition Label : Type := string * Group.

(** The three texts [_analyze_conflict] returns: "가능한 시간대가 없음",
    "모든 가능 시간대가 이미 배정됨. 충돌 팀: ..." with the joined sample of
    labels, and "알 수 없는 이유". *)
Inductive ConflictReason :=
  | NoAvailableSlots
  | AllSlotsOccupied (sample : list Label)
  | Indeterminate.

Record Team := mkTeam {
  name : string;
  available_slots : list string;
  email : string;
  phone : string;
  assigned_slot : option string;
  assigned_group : option Group;
  conflict_reason : option ConflictReason
}.

Record TimeSlot := mkTimeSlot {
  date : string;
  time : string;
  full_slot : string;
  group_a_team : option string;
  group_b_team : option string
}.

Definition is_full (ts : TimeSlot) : bool :=
  bool_decide (group_a_team ts ≠ None) && bool_decide (group_b_team ts ≠ None).

Definition has_space (ts : TimeSlot) : bool :=
  bool_decide (group_a_team ts = None) || bool_decide (group_b_team ts = None).

Definition get_available_group (ts : TimeSlot) : option Group :=
  if bool_decide (group_a_team ts = None) then Some GroupA
  else if bool_decide (group_b_team ts = None) then Some GroupB
  else None.

(** The scheduler object: [self.teams] and [self.time_slots]
    ([self.all_slots] never changes after construction and is the constant
    [all_slots] below). *)
Record Scheduler := mkScheduler {
  teams : list Team;
  time_slots : gmap string TimeSlot
}.

Definition friday_times : list string :=
  ["19:00-19:45"; "19:45-20:30"; "20:30-21:15"; "21:15-22:00"].

Definition saturday_times : list string :=
  ["10:00-10:45"; "10:45-11:30"; "11:30-12:15"; "12:15-13:00";
   "13:00-13:45"; "13:45-14:30"; "14:30-15:15"; "15:15-16:00";
   "16:00-16:45"; "16:45-17:30"; "17:30-18:15"; "18:15-19:00";
   "19:00-19:45"; "19:45-20:30"; "20:30-21:15"; "21:15-22:00"].

Definition sunday_times : list string := saturday_times.

Definition _generate_all_slots : list string :=
  map (λ time, "9/12 " +:+ time) friday_times
  ++ map (λ time, "9/13 " +:+ time) saturday_times
  ++ map (λ time, "9/14 " +:+ time) sunday_times.

Definition all_slots : list string := Eval cbv in _generate_all_slots.

Definition dates : list string := ["9/12"; "9/13"; "9/14"].

Definition _initialize_time_slots : gmap string TimeSlot :=
  foldl (λ m slot,
           let '(date, time) := split_space slot in
           <[slot := mkTimeSlot date time slot None None]> m)
        ∅ all_slots.

(** [AdvancedInterviewScheduler()] *)
Definition init : Scheduler := mkScheduler [] _initialize_time_slots.

Definition add_team (name : string) (available_slots : list string)
    (email phone : string) (st : Scheduler) : Scheduler :=
  mkScheduler
    (teams st ++ [mkTeam name available_slots email phone None None None])
    (time_slots st).

(** [ts.group_a_team = v] and [ts.group_b_team = v] *)
Definition set_group_a (v : option string) (ts : TimeSlot) : TimeSlot :=
  mkTimeSlot (date ts) (time ts) (full_slot ts) v (group_b_team ts).

Definition set_group_b (v : option string) (ts : TimeSlot) : TimeSlot :=
  mkTimeSlot (date ts) (time ts) (full_slot ts) (group_a_team ts) v.

Definition clear_slot (ts : TimeSlot) : TimeSlot :=
  set_group_b None (set_group_a None ts).

(** The three assignments that reset a team, and the ones that record a
    placement or a failure. *)
Definition reset_team (t : Team) : Team :=
  mkTeam (name t) (available_slots t) (email t) (phone t) None None None.

Definition set_assignment (slot : option string) (group : option Group)
    (reason : option ConflictReason) (t : Team) : Team :=
  mkTeam (name t) (available_slots t) (email t) (phone t) slot group reason.

Definition set_conflict_reason (reason : option ConflictReason) (t : Team)
    : Team :=
  mkTeam (name t) (available_slots t) (email t) (phone t)
         (assigned_slot t) (assigned_group t) reason.

(** [_get_continuous_slot_priority] *)
Definition _get_continuous_slot_priority : list string :=
  concat (map (λ date, filter (λ s, String.prefix date s = true) all_slots)
              dates).

(** [list(set(xs))]: the elements of [xs] without repetition, in the order
    the hash table yields them.  That order is not fixed by the language
    (string hashing is salted per process), so it is a parameter of the
    model, [set_order]; [first_seen_order] is one admissible choice. *)
Definition first_seen_order (xs : list Label) : list Label :=
  remove_dups xs.

Section WithSetOrder.

Variable set_order : list Label → list Label.

(** [_analyze_conflict] *)
Definition conflict_labels (ts : TimeSlot) : list Label :=
  (if truthy (group_a_team ts)
   then [(default EmptyString (group_a_team ts), GroupA)] else [])
  ++ (if truthy (group_b_team ts)
      then [(default EmptyString (group_b_team ts), GroupB)] else []).

Definition all_full (slots : gmap string TimeSlot) (avail : list string)
    : bool :=
  forallb (λ slot, match slots !! slot with
                   | Some ts => negb (has_space ts)
                   | None => true
                   end) avail.

Definition conflicting_teams (slots : gmap string TimeSlot)
    (avail : list string) : list Label :=
  concat (map (λ slot, match slots !! slot with
                       | Some ts => conflict_labels ts
                       | None => []
                       end) avail).

Definition _analyze_conflict (slots : gmap string TimeSlot) (team : Team)
    : ConflictReason :=
  match available_slots team with
  | [] => NoAvailableSlots
  | _ =>
      if all_full slots (available_slots team) then
        AllSlotsOccupied
          (take 3 (set_order (conflicting_teams slots (available_slots team))))
      else Indeterminate
  end.

(** The inner loop of [schedule_interviews_continuous]: the scan of
    [slot_priority] for one team.  It returns the slot and group taken and
    the updated [time_slots], or [None] when the loop ends without [break].
    [self.time_slots[slot]] cannot raise KeyError here: every slot of
    [slot_priority] is a key of [time_slots] from construction on (see
    [wf_slots]); the model moves on to the next slot in that case. *)
Fixpoint scan_slots (team : Team) (slot_priority : list string)
    (slots : gmap string TimeSlot)
    : option (string * Group * gmap string TimeSlot) :=
  match slot_priority with
  | [] => None
  | slot :: rest =>
      if bool_decide (slot ∈ available_slots team) then
        match slots !! slot with
        | Some time_slot =>
            if has_space time_slot then
              match get_available_group time_slot with
              | Some GroupA =>
                  Some (slot, GroupA,
                        <[slot := set_group_a (Some (name team)) time_slot]> slots)
              | _ =>
                  Some (slot, GroupB,
                        <[slot := set_group_b (Some (name team)) time_slot]> slots)
              end
            else scan_slots team rest slots
        | None => scan_slots team rest slots
        end
      else scan_slots team rest slots
  end.

(** The body of [for team in sorted_teams].  [sorted_teams] holds references
    to the objects of [self.teams]; a reference is the index of the object in
    [self.teams]. *)
Definition place_team (slot_priority : list string) (st : Scheduler)
    (i : nat) : Scheduler :=
  match teams st !! i with
  | None => st
  | Some team =>
      if truthy (assigned_slot team) then st
      else
        match scan_slots team slot_priority (time_slots st) with
        | Some (slot, group, slots') =>
            mkScheduler
              (<[i := set_assignment (Some slot) (Some group)
                        (conflict_reason team) team]> (teams st))
              slots'
        | None =>
            mkScheduler
              (<[i := set_conflict_reason
                        (Some (_analyze_conflict (time_slots st) team)) team]>
                 (teams st))
              (time_slots st)
        end
  end.

(** [sorted(self.teams, key=lambda t: len(t.available_slots))], as
    references. *)
Definition sorted_teams (ts : list Team) : list nat :=
  (sorted_by_key (λ it : nat * Team, length (available_slots it.2))
                 (zip (seq 0 (length ts)) ts)).*1.

(** [_get_schedule_by_group]: the dictionary [{"A": {...}, "B": {...}}]. *)
Record Schedule := mkSchedule {
  sched_A : gmap string string;
  sched_B : gmap string string
}.

Definition _get_schedule_by_group (st : Scheduler) : Schedule :=
  mkSchedule
    (omap (λ ts, if truthy (group_a_team ts) then group_a_team ts else None)
          (time_slots st))
    (omap (λ ts, if truthy (group_b_team ts) then group_b_team ts else None)
          (time_slots st)).

(** [schedule_interviews_continuous]: the scheduler after the call (the
    returned dictionary is [_get_schedule_by_group] of it). *)
Definition reset (st : Scheduler) : Scheduler :=
  mkScheduler (reset_team <$> teams st) (clear_slot <$> time_slots st).

Definition schedule_interviews_continuous (st : Scheduler) : Scheduler :=
  let st0 := reset st in
  foldl (place_team _get_continuous_slot_priority) st0
        (sorted_teams (teams st0)).

(** [_calculate_gap_score].  [gap_step] is the body of the innermost loop;
    it carries [in_session] and [gap_score]. *)
Definition has_team (group : Group) (time_slot : TimeSlot) : bool :=
  match group with
  | GroupA => bool_decide (group_a_team time_slot ≠ None)
  | GroupB => bool_decide (group_b_team time_slot ≠ None)
  end.

Definition gap_step (group : Group) (slots : gmap string TimeSlot)
    (acc : bool * nat) (slot : string) : bool * nat :=
  let '(in_session, gap_score) := acc in
  match slots !! slot with
  | Some time_slot =>
      if has_team group time_slot then (true, gap_score)
      else if in_session then (in_session, S gap_score)
      else (in_session, gap_score)
  | None => acc
  end.

Definition date_slots (date : string) : list string :=
  filter (λ s, String.prefix date s = true) all_slots.

Definition _calculate_gap_score (st : Scheduler) : nat :=
  foldl (λ gap_score group,
           foldl (λ gap_score date,
                    (foldl (gap_step group (time_slots st))
                           (false, gap_score) (date_slots date)).2)
                 gap_score dates)
        0 [GroupA; GroupB].

(** [get_schedule_statistics], its integer entries (the percentages are
    formatted floating-point numbers and are left out). *)
Record Statistics := mkStatistics {
  total_teams : nat;
  assigned_teams : nat;
  unassigned_teams : nat;
  group_a_count : nat;
  group_b_count : nat;
  date_stats : list (string * (nat * nat));
  gap_score_stat : nat
}.

Definition count_date (proj : TimeSlot → option string) (date : string)
    (slots : gmap string TimeSlot) : nat :=
  size (filter (λ kv : string * TimeSlot,
                  (split_space kv.1).1 = date ∧ truthy (proj kv.2) = true)
               slots).

Definition get_schedule_statistics (st : Scheduler) : Statistics :=
  let total := length (teams st) in
  let assigned :=
    length (filter (λ t, truthy (assigned_slot t) = true) (teams st)) in
  mkStatistics total assigned (total - assigned)
    (length (filter (λ t, assigned_group t = Some GroupA) (teams st)))
    (length (filter (λ t, assigned_group t = Some GroupB) (teams st)))
    (map (λ date, (date, (count_date group_a_team date (time_slots st),
                          count_date group_b_team date (time_slots st))))
         dates)
    (_calculate_gap_score st).

(** [get_unassigned_teams_detail]: per unassigned team its name, e-mail,
    phone, the first three available slots and the stored reason. *)
Definition get_unassigned_teams_detail (st : Scheduler)
    : list (string * string * string * list string * option ConflictReason) :=
  map (λ t, (name t, email t, phone t, take 3 (available_slots t),
             conflict_reason t))
      (filter (λ t, truthy (assigned_slot t) = false) (teams st)).

(** [optimize_schedule].  [random.shuffle(self.teams)] permutes the list in
    place; the permutation drawn in iteration [i] is [shuffle i]. *)
Definition Saved : Type :=
  string * option string * option Group * option ConflictReason.

Record Best := mkBest {
  best_schedule : option Schedule;      (* [None] is the initial [{}] *)
  best_count : nat;
  best_gap_score : option nat;          (* [None] is [float('inf')] *)
  best_team_assignments : list Saved
}.

Definition best0 : Best := mkBest None 0 None [].

Definition improves (assigned_count gap_score : nat) (b : Best) : bool :=
  bool_decide (best_count b < assigned_count)%nat
  || (bool_decide (assigned_count = best_count b)
      && match best_gap_score b with
         | None => true
         | Some g => bool_decide (gap_score < g)%nat
         end).

Definition assigned_count (st : Scheduler) : nat :=
  length (filter (λ t, truthy (assigned_slot t) = true) (teams st)).

Definition save_team (t : Team) : Saved :=
  (name t, assigned_slot t, assigned_group t, conflict_reason t).

Section WithShuffle.

Variable shuffle : nat → list Team → list Team.

(** One pass of the loop body up to the comparison: shuffle, then the greedy
    run. *)
Definition run_iteration (iteration : nat) (st : Scheduler) : Scheduler :=
  schedule_interviews_continuous
    (mkScheduler (shuffle iteration (teams st)) (time_slots st)).

(** [for iteration in range(max_iterations)], with [remaining] iterations to
    go. *)
Fixpoint optimize_loop (remaining iteration : nat) (st : Scheduler)
    (b : Best) : Scheduler * Best :=
  match remaining with
  | 0 => (st, b)
  | S remaining' =>
      let st' := run_iteration iteration st in
      let schedule := _get_schedule_by_group st' in
      let count := assigned_count st' in
      let gap_score := _calculate_gap_score st' in
      if improves count gap_score b then
        let b' := mkBest (Some schedule) count (Some gap_score)
                         (save_team <$> teams st') in
        if bool_decide (count = length (teams st'))
           && bool_decide (gap_score = 0)
        then (st', b')
        else optimize_loop remaining' (S iteration) st' b'
      else optimize_loop remaining' (S iteration) st' b
  end.

(** The restoration after the loop.  [self.time_slots[slot]] is defined for
    every key of the saved schedule, which was read off [time_slots]. *)
Definition restore_slots (schedule : Schedule)
    (slots : gmap string TimeSlot) : gmap string TimeSlot :=
  let cleared := clear_slot <$> slots in
  let with_a :=
    map_fold (λ slot team_name m, alter (set_group_a (Some team_name)) slot m)
             cleared (sched_A schedule) in
  map_fold (λ slot team_name m, alter (set_group_b (Some team_name)) slot m)
           with_a (sched_B schedule).

Definition restore_team (saved : list Saved) (team : Team) : Team :=
  match find (λ e : Saved, bool_decide (name team = e.1.1.1)) saved with
  | Some (_, slot, group, reason) => set_assignment slot group reason team
  | None => team
  end.

Definition restore (st : Scheduler) (b : Best) : Scheduler :=
  match best_team_assignments b, best_schedule b with
  | _ :: _, Some schedule =>
      mkScheduler (restore_team (best_team_assignments b) <$> teams st)
                  (restore_slots schedule (time_slots st))
  | _, _ => st
  end.

(** The scheduler after [optimize_schedule(max_iterations)] and the returned
    dictionary ([None] for the empty dictionary [{}]). *)
Definition optimize_schedule (max_iterations : nat) (st : Scheduler)
    : Scheduler * option Schedule :=
  let '(st', b) := optimize_loop max_iterations 0 st best0 in
  (restore st' b, best_schedule b).

End WithShuffle.

End WithSetOrder.

End AdvancedScheduler.

(** * schedule_optimizer.py *)
Module ScheduleOptimizer.

Record Team := mkTeam {
  name : string;
  available_slots : list string;
  email : string;
  phone : string;
  assigned_slot : option string
}.

(** The scheduler object: [self.teams] and [self.schedule], the dictionary
    from slot to team name. *)
Record Scheduler := mkScheduler {
  teams : list Team;
  schedule : gmap string string
}.

Definition set_assigned_slot (slot : option string) (t : Team) : Team :=
  mkTeam (name t) (available_slots t) (email t) (phone t) slot.

Definition add_team (name : string) (available_slots : list string)
    (email phone : string) (st : Scheduler) : Scheduler :=
  mkScheduler (teams st ++ [mkTeam name available_slots email phone None])
              (schedule st).

(** The inner loop of [_greedy_scheduling]: the first slot of the team's list
    that is not a key of the schedule. *)
Fixpoint first_free (slots : list string) (schedule : gmap string string)
    : option string :=
  match slots with
  | [] => None
  | slot :: rest =>
      if bool_decide (schedule !! slot = None) then Some slot
      else first_free rest schedule
  end.

(** The body of [for team in sorted_teams]; a team is referred to by its
    index in [self.teams]. *)
Definition greedy_step (st : Scheduler) (i : nat) : Scheduler :=
  match teams st !! i with
  | None => st
  | Some team =>
      match first_free (available_slots team) (schedule st) with
      | Some slot =>
          mkScheduler (<[i := set_assigned_slot (Some slot) team]> (teams st))
                      (<[slot := name team]> (schedule st))
      | None => st
      end
  end.

Definition sorted_teams (ts : list Team) : list nat :=
  (sorted_by_key (λ it : nat * Team, length (available_slots it.2))
                 (zip (seq 0 (length ts)) ts)).*1.

(** [_greedy_scheduling]: the scheduler after the call; the returned
    dictionary is its [schedule]. *)
Definition _greedy_scheduling (st : Scheduler) : Scheduler :=
  foldl greedy_step (mkScheduler (teams st) ∅) (sorted_teams (teams st)).

(** The state the nested function [backtrack] works on: [self.schedule],
    the local set [assigned_teams] and [self.teams]. *)
Record BT := mkBT {
  bt_schedule : gmap string string;
  bt_assigned : gset string;
  bt_teams : list Team
}.

(** The loop [for slot in team.available_slots] of [backtrack]; [next] is the
    recursive call [backtrack(team_idx + 1)]. *)
Fixpoint try_slots (next : BT → bool * BT) (team_idx : nat) (team : Team)
    (slots : list string) (st : BT) : bool * BT :=
  match slots with
  | [] => (false, st)
  | slot :: rest =>
      if bool_decide (bt_schedule st !! slot = None) then
        let st1 :=
          mkBT (<[slot := name team]> (bt_schedule st))
               ({[name team]} ∪ bt_assigned st)
               (alter (set_assigned_slot (Some slot)) team_idx (bt_teams st)) in
        let '(ok, st2) := next st1 in
        if ok then (true, st2)
        else
          let st3 :=
            mkBT (delete slot (bt_schedule st2))
                 (bt_assigned st2 ∖ {[name team]})
                 (alter (set_assigned_slot None) team_idx (bt_teams st2)) in
          try_slots next team_idx team rest st3
      else try_slots next team_idx team rest st
  end.

(** [backtrack(team_idx)].  The recursion is on [remaining], the number of
    teams from [team_idx] on; the top-level call passes [len(self.teams)]. *)
Fixpoint backtrack (remaining team_idx : nat) (st : BT) : bool * BT :=
  match bt_teams st !! team_idx with
  | None => (true, st)
  | Some team =>
      match remaining with
      | 0 => (false, st)
      | S remaining' =>
          if bool_decide (name team ∈ bt_assigned st) then
            backtrack remaining' (S team_idx) st
          else
            try_slots (backtrack remaining' (S team_idx)) team_idx team
                      (available_slots team) st
      end
  end.

(** [_backtrack_scheduling]: the scheduler after the call and whether the
    search succeeded ([false]: the result is the greedy fallback's). *)
Definition _backtrack_scheduling (st : Scheduler) : bool * Scheduler :=
  let sorted := sorted_by_key (λ t, length (available_slots t)) (teams st) in
  let '(ok, r) := backtrack (length sorted) 0 (mkBT ∅ ∅ sorted) in
  if ok then (true, mkScheduler (bt_teams r) (bt_schedule r))
  else (false, _greedy_scheduling (mkScheduler (bt_teams r) (bt_schedule r))).

End ScheduleOptimizer.

(** * core/scheduler_engine.py and core/models.py *)
Module ExactSolver.

Inductive InterviewGroup := A | B.

#[export] Instance InterviewGroup_eq_dec : EqDecision InterviewGroup.
Proof. solve_decision. Defined.

(** [InterviewSlot].  [slot_id] is the first eight characters of a fresh
    UUID; the model numbers the slots instead.  [date] is the day offset
    from today and the times are minutes after midnight (the source keeps
    them as "YYYY-MM-DD" and "HH:MM" text and parses them back). *)
Record InterviewSlot := mkSlot {
  slot_id : nat;
  date : nat;
  start_time : nat;
  end_time : nat;
  group : InterviewGroup
}.

#[export] Instance InterviewSlot_eq_dec : EqDecision InterviewSlot.
Proof. solve_decision. Defined.

(** A time preference "HH:MM-HH:MM" as [_find_matching_slots] reads it: the
    two times in minutes, or [None] for a text it cannot parse (it then
    matches no slot). *)
Definition TimePreference : Type := option (nat * nat).

(** [Team], the fields the engine reads. *)
Record Team := mkTeam {
  team_id : string;
  team_name : string;
  time_preferences : list TimePreference
}.

(** [InterviewConstraint], the two dictionaries the engine reads. *)
Record InterviewConstraint := mkConstraint {
  interviewer_avoidance : gmap string (list string);
  interviewer_groups : gmap string string
}.

Definition default_constraint : InterviewConstraint := mkConstraint ∅ ∅.

Record Schedule := mkSchedule {
  team : Team;
  interview_slot : InterviewSlot;
  preference_rank : nat
}.

Inductive OptimizationStrategy :=
  | FIRST_PREFERENCE
  | TIME_DISTRIBUTION
  | MORNING_AFTERNOON_BALANCE
  | GROUP_BALANCE
  | INTERVIEWER_CONSTRAINTS.

Record SchedulingOption := mkOption {
  option_name : nat;                     (* "옵션 1" .. "옵션 5" *)
  strategy_type : OptimizationStrategy;
  schedules : list Schedule
}.

(** The answer of the CP-SAT solver: its status and, for the statuses
    [OPTIMAL] and [FEASIBLE], the value of every Boolean variable, looked up
    by the key of the dictionary that holds the variable. *)
Inductive CpStatus := UNKNOWN | MODEL_INVALID | FEASIBLE | INFEASIBLE | OPTIMAL.

Record Solution := mkSolution {
  schedule_vars : string → nat → InterviewGroup → bool;
  preference_vars : string → nat → bool;
  group_vars : string → InterviewGroup → bool
}.

(** [_generate_default_time_slots].  [times fuel current end_time] is the
    [while current_time < end_time] loop. *)
Fixpoint times (fuel current_time end_time : nat) : list nat :=
  match fuel with
  | 0 => []
  | S fuel' =>
      if decide (current_time < end_time)%nat
      then current_time :: times fuel' (current_time + 30) end_time
      else []
  end.

Definition time_ranges : list (nat * nat) := [(9, 12); (14, 18)].

Definition default_windows : list (nat * nat) :=
  day_offset ← seq 0 3;
  '(start_hour, end_hour) ← time_ranges;
  current_time ← times (end_hour * 60) (start_hour * 60) (end_hour * 60);
  [(day_offset, current_time)].

Definition _generate_default_time_slots : list InterviewSlot :=
  imap (λ i '(day_offset, current_time, group),
          mkSlot i day_offset current_time (current_time + 30) group)
       ('(day_offset, current_time) ← default_windows;
        group ← [A; B];
        [(day_offset, current_time, group)]).

Definition groups : list InterviewGroup := [A; B].

(** [sum(vars)] for a list of Boolean variables under a solution. *)
Definition sum_vars (vars : list bool) : nat :=
  list_sum (map Nat.b2n vars).

Section Engine.

(** [self.time_slots] *)
Variable time_slots : list InterviewSlot.

(** [_time_ranges_overlap] and [_find_matching_slots] *)
Definition _time_ranges_overlap (start1 end1 start2 end2 : nat) : bool :=
  bool_decide (start1 < end2)%nat && bool_decide (start2 < end1)%nat.

Definition _find_matching_slots (time_preference : TimePreference)
    : list InterviewSlot :=
  match time_preference with
  | None => []
  | Some (start_time', end_time') =>
      filter (λ slot, _time_ranges_overlap start_time' end_time'
                        (start_time slot) (end_time slot) = true)
             time_slots
  end.

(** [_add_basic_constraints], one Boolean check per numbered block; the
    solution [sol] gives the variables their values. *)
Definition team_assigned_once (sol : Solution) (teams : list Team) : bool :=
  forallb (λ team,
    let schedule_sum :=
      slot ← time_slots; group ← groups;
      [schedule_vars sol (team_id team) (slot_id slot) group] in
    match schedule_sum with
    | [] => true
    | _ => bool_decide (sum_vars schedule_sum = 1)
    end) teams.

Definition slot_capacity (sol : Solution) (teams : list Team) : bool :=
  forallb (λ slot,
    forallb (λ group,
      let slot_vars :=
        map (λ team, schedule_vars sol (team_id team) (slot_id slot) group)
            teams in
      match slot_vars with
      | [] => true
      | _ => bool_decide (sum_vars slot_vars ≤ 1)%nat
      end) groups) time_slots.

Definition group_consistency (sol : Solution) (teams : list Team) : bool :=
  forallb (λ team,
    forallb (λ group',
      let group_schedule_vars :=
        map (λ slot, schedule_vars sol (team_id team) (slot_id slot) group')
            (filter (λ slot, group slot = group') time_slots) in
      match group_schedule_vars with
      | [] => true
      | _ => bool_decide (sum_vars group_schedule_vars
                          = Nat.b2n (group_vars sol (team_id team) group'))
      end) groups) teams.

Definition preference_link (sol : Solution) (teams : list Team) : bool :=
  forallb (λ team,
    forallb (λ '(rank0, time_pref),
      let rank := S rank0 in
      let matching_slots := _find_matching_slots time_pref in
      let matching_schedule_vars :=
        slot ← matching_slots; group ← groups;
        [schedule_vars sol (team_id team) (slot_id slot) group] in
      match matching_schedule_vars with
      | [] => true
      | _ => bool_decide (Nat.b2n (preference_vars sol (team_id team) rank)
                          ≤ sum_vars matching_schedule_vars)%nat
      end) (imap pair (take 3 (time_preferences team)))) teams.

Definition _add_basic_constraints (sol : Solution) (teams : list Team) : bool :=
  team_assigned_once sol teams && slot_capacity sol teams
  && group_consistency sol teams && preference_link sol teams.

(** [_add_interviewer_constraints].  An interviewer without a group, or with
    the empty text as group, is skipped; the group is [A] for the text "A"
    and [B] for every other text; an avoided id that no team carries is
    skipped. *)
Definition group_enum (interviewer_group : string) : InterviewGroup :=
  if bool_decide (interviewer_group = "A") then A else B.

Definition _add_interviewer_constraints (sol : Solution) (teams : list Team)
    (constraints : InterviewConstraint) : bool :=
  forallb (λ '(interviewer_id, avoided_teams),
    match interviewer_groups constraints !! interviewer_id with
    | None => true
    | Some interviewer_group =>
        if bool_decide (interviewer_group = EmptyString) then true
        else
          forallb (λ avoided_id,
            match find (λ t, bool_decide (team_id t = avoided_id)) teams with
            | None => true
            | Some team =>
                negb (group_vars sol (team_id team)
                                 (group_enum interviewer_group))
            end) avoided_teams
    end) (map_to_list (interviewer_avoidance constraints)).

(** The constraints [_generate_single_option] adds to the model before the
    objective ([_add_symmetry_breaking_constraints] adds nothing). *)
Definition satisfies (sol : Solution) (teams : list Team)
    (constraints : InterviewConstraint) : bool :=
  _add_basic_constraints sol teams
  && _add_interviewer_constraints sol teams constraints.

(** [_extract_solution] *)
Definition placed_on (sol : Solution) (team : Team) (slot : InterviewSlot)
    : bool :=
  existsb (λ group, schedule_vars sol (team_id team) (slot_id slot) group)
          groups.

Definition rank_of (sol : Solution) (team : Team) : nat :=
  default 0 (find (λ rank, preference_vars sol (team_id team) rank) [1; 2; 3]).

Definition _extract_solution (sol : Solution) (teams : list Team)
    : list Schedule :=
  omap (λ team,
          (λ slot, mkSchedule team slot (rank_of sol team))
            <$> find (placed_on sol team) time_slots)
       teams.

(** [_set_objective_function]: whether the call returns ([true]) or raises
    ([false]).  Four of the five objectives add auxiliary variables with
    the constraints that define them, which a choice of those variables
    meets, and return.  [_set_group_balance_objective] filters the group
    variables with [if v != 0]; on a solver variable that comparison builds
    a linear constraint, whose truth value cannot be taken, so the call
    raises as soon as the team list has one team. *)
Definition _set_objective_function (teams : list Team)
    (strategy : OptimizationStrategy) : bool :=
  match strategy, teams with
  | GROUP_BALANCE, _ :: _ => false
  | _, _ => true
  end.

(** [_generate_single_option].  The result is [None] when the call raises,
    [Some None] when it returns [None], and [Some (Some option)] when it
    returns an option.  [answer] is what [self.solver.Solve] and the solver's
    values give when the call gets that far. *)
Definition _generate_single_option (teams : list Team)
    (strategy : OptimizationStrategy) (option_name : nat)
    (answer : CpStatus * Solution) : option (option SchedulingOption) :=
  if _set_objective_function teams strategy then
    match answer.1 with
    | OPTIMAL | FEASIBLE =>
        Some (Some (mkOption option_name strategy
                             (_extract_solution answer.2 teams)))
    | _ => Some None
    end
  else None.

Definition strategies : list (OptimizationStrategy * nat) :=
  [(FIRST_PREFERENCE, 1); (TIME_DISTRIBUTION, 2);
   (MORNING_AFTERNOON_BALANCE, 3); (GROUP_BALANCE, 4);
   (INTERVIEWER_CONSTRAINTS, 5)].

(** [generate_five_options].  [solve] is the CP solver on the model built for
    a strategy.  The result is [None] for the [ValueError] raised on an empty
    team list.  A strategy whose call raises is logged by the [except]
    clause and left out; so is a strategy whose option is [None], for which
    [option.generation_time = ...] raises [AttributeError]. *)
Definition generate_five_options
    (solve : OptimizationStrategy → CpStatus * Solution)
    (teams : list Team) : option (list SchedulingOption) :=
  match teams with
  | [] => None
  | _ =>
      Some (omap (λ '(strategy, name),
                    match _generate_single_option teams strategy name
                                                  (solve strategy) with
                    | Some (Some option) =>
                        match schedules option with
                        | [] => None
                        | _ => Some option
                        end
                    | Some None => None
                    | None => None
                    end) strategies)
  end.

(** [validate_solution], its check for slot conflicts: the keys
    [(slot_id, group)] that come up a second time. *)
Fixpoint slot_conflicts (seen : list (nat * InterviewGroup))
    (schedules : list Schedule) : list (nat * InterviewGroup) :=
  match schedules with
  | [] => []
  | schedule :: rest =>
      let key := (slot_id (interview_slot schedule),
                  group (interview_slot schedule)) in
      if bool_decide (key ∈ seen) then key :: slot_conflicts seen rest
      else slot_conflicts (key :: seen) rest
  end.

End Engine.

End ExactSolver.

(** * Facts about the stable sort *)
Section SortedByKey.

Context {T : Type} (key : T → nat).


Lemma insert_by_key_perm {B} (k : B → nat) x l :
  insert_by_key k x l ≡ₚ x :: l.
Proof.
  induction l as [|y l IH]; simpl; [done|].
  case_decide; [done|]. rewrite IH. apply Permutation_swap.
Qed.

Lemma sorted_by_key_perm {B} (k : B → nat) l : sorted_by_key k l ≡ₚ l.
Proof.
  induction l as [|x l IH]; simpl; [done|].
  rewrite insert_by_key_perm. by rewrite IH.
Qed.





End SortedByKey.


(** * Facts about advanced_scheduler.py *)
Module AdvancedFacts.
Import AdvancedScheduler.

(** ** Vocabulary of the statements *)

Definition occupant (g : Group) (ts : TimeSlot) : option string :=
  match g with GroupA => group_a_team ts | GroupB => group_b_team ts end.

Definition set_group (g : Group) (v : option string) (ts : TimeSlot) : TimeSlot :=
  match g with GroupA => set_group_a v ts | GroupB => set_group_b v ts end.

(** The lowest free track of a slot that has space. *)
Definition lowest_free (ts : TimeSlot) : Group :=
  if bool_decide (group_a_team ts = None) then GroupA else GroupB.

(** Every slot of the calendar has its [TimeSlot] object. *)
Definition wf_slots (slots : gmap string TimeSlot) : Prop :=
  ∀ s, s ∈ all_slots → is_Some (slots !! s).




(** The scheduler after the first [k] teams of the processing order. *)
Definition greedy_state (set_order : list Label → list Label)
    (st : Scheduler) (k : nat) : Scheduler :=
  foldl (place_team set_order _get_continuous_slot_priority) (reset st)
        (take k (sorted_teams (teams st))).

(** ** The slot priority and the calendar *)

Lemma slot_priority_all_slots : _get_continuous_slot_priority = all_slots.
Proof. reflexivity. Qed.

Lemma all_slots_NoDup : NoDup all_slots.
Proof. apply (bool_decide_unpack _). vm_compute. done. Qed.



Lemma wf_slots_insert slots s ts :
  wf_slots slots → wf_slots (<[s := ts]> slots).
Proof.
  intros Hwf s' Hs'. destruct (decide (s = s')) as [->|Hne].
  - rewrite lookup_insert_eq. by eexists.
  - rewrite lookup_insert_ne by done. by apply Hwf.
Qed.

(** The calendar is a constant; the proofs below treat it as a name. *)
#[local] Opaque _get_continuous_slot_priority all_slots.

(** ** The scan of one team *)

Lemma has_space_lowest_free ts :
  has_space ts = true →
  get_available_group ts = Some (lowest_free ts) ∧
  occupant (lowest_free ts) ts = None.
Proof.
  unfold has_space, get_available_group, lowest_free, occupant.
  destruct ts as [d t f a b]; simpl.
  destruct a, b; simpl; intros; try done.
Qed.

Lemma scan_slots_Some team prio slots slot g slots' :
  scan_slots team prio slots = Some (slot, g, slots') →
  ∃ pre post ts,
    prio = (pre ++ slot :: post)%list ∧
    slot ∈ available_slots team ∧
    slots !! slot = Some ts ∧ has_space ts = true ∧
    (∀ s ts', s ∈ pre → s ∈ available_slots team →
              slots !! s = Some ts' → has_space ts' = false) ∧
    g = lowest_free ts ∧
    slots' = <[slot := set_group g (Some (name team)) ts]> slots.
Proof.
  induction prio as [|s prio IH]; simpl; [done|].
  intros Hscan.
  assert (Hrest : scan_slots team prio slots = Some (slot, g, slots') →
    (s ∈ available_slots team → ∀ ts', slots !! s = Some ts' →
       has_space ts' = false) →
    ∃ pre post ts, s :: prio = (pre ++ slot :: post)%list ∧
      slot ∈ available_slots team ∧ slots !! slot = Some ts ∧
      has_space ts = true ∧
      (∀ s0 ts', s0 ∈ pre → s0 ∈ available_slots team →
                 slots !! s0 = Some ts' → has_space ts' = false) ∧
      g = lowest_free ts ∧
      slots' = <[slot := set_group g (Some (name team)) ts]> slots).
  { intros Hr Hs. destruct (IH Hr) as (pre & post & ts & -> & ? & ? & ? & Hpre & ? & ?).
    exists (s :: pre), post, ts. split_and!; try done.
    intros s0 ts' [->|Hin]%elem_of_cons; eauto. }
  case_bool_decide as Hav; [|apply Hrest; [done|tauto]].
  destruct (slots !! s) as [ts|] eqn:Hts; [|apply Hrest; [done|congruence]].
  destruct (has_space ts) eqn:Hsp;
    [|apply Hrest; [done|intros _ ts' [= <-]; done]].
  destruct (has_space_lowest_free ts Hsp) as [Hg _].
  rewrite Hg in Hscan.
  exists [], prio, ts.
  destruct (lowest_free ts) eqn:Hlf; inversion Hscan; subst;
    split_and!; try done; try (by intros ?? ?%elem_of_nil);
    by rewrite Hlf.
Qed.

Lemma scan_slots_None team prio slots :
  scan_slots team prio slots = None →
  ∀ s ts, s ∈ prio → s ∈ available_slots team →
          slots !! s = Some ts → has_space ts = false.
Proof.
  induction prio as [|s0 prio IH]; simpl; intros Hscan s ts Hin Hav Hts;
    [by apply elem_of_nil in Hin|].
  apply elem_of_cons in Hin as [->|Hin].
  - rewrite bool_decide_eq_true_2, Hts in Hscan by done.
    destruct (has_space ts); [|done].
    by destruct (get_available_group ts) as [[]|].
  - case_bool_decide; [|by eapply IH].
    destruct (slots !! s0) as [ts0|]; [|by eapply IH].
    destruct (has_space ts0); [|by eapply IH].
    by destruct (get_available_group ts0) as [[]|].
Qed.

(** ** One step of the greedy loop *)

Section Greedy.

Variable set_order : list Label → list Label.

Local Abbreviation place := (place_team set_order _get_continuous_slot_priority).

Lemma reset_team_set_assignment slot g r t :
  reset_team (set_assignment slot g r t) = reset_team t.
Proof. done. Qed.

Lemma reset_team_set_conflict_reason r t :
  reset_team (set_conflict_reason r t) = reset_team t.
Proof. done. Qed.

Lemma clear_slot_set_group g v ts :
  clear_slot (set_group g v ts) = clear_slot ts.
Proof. by destruct g. Qed.

(** What a step does to the team it is called for. *)
Lemma place_team_step st i team :
  teams st !! i = Some team →
  assigned_slot team = None →
  (∃ slot ts pre post,
      all_slots = (pre ++ slot :: post)%list ∧
      slot ∈ available_slots team ∧
      time_slots st !! slot = Some ts ∧ has_space ts = true ∧
      (∀ s ts', s ∈ pre → s ∈ available_slots team →
                time_slots st !! s = Some ts' → has_space ts' = false) ∧
      place st i =
        mkScheduler
          (<[i := set_assignment (Some slot) (Some (lowest_free ts))
                    (conflict_reason team) team]> (teams st))
          (<[slot := set_group (lowest_free ts) (Some (name team)) ts]>
             (time_slots st)))
  ∨ ((∀ s ts, s ∈ all_slots → s ∈ available_slots team →
              time_slots st !! s = Some ts → has_space ts = false) ∧
     place st i =
       mkScheduler
         (<[i := set_conflict_reason
                   (Some (_analyze_conflict set_order (time_slots st) team))
                   team]> (teams st))
         (time_slots st)).
Proof.
  intros Hi Hnone. unfold place_team. rewrite Hi, Hnone. simpl.
  destruct (scan_slots team _ (time_slots st)) as [[[slot g] slots']|] eqn:Hscan.
  - left. apply scan_slots_Some in Hscan
      as (pre & post & ts & Hprio & ? & ? & ? & ? & -> & ->).
    rewrite slot_priority_all_slots in Hprio.
    exists slot, ts, pre, post. done.
  - right. split; [|done]. intros s ts Hs.
    eapply scan_slots_None; [done|]. by rewrite slot_priority_all_slots.
Qed.

(** A step leaves every other team object alone, never changes a name, an
    availability list, an e-mail address or a phone number, and only ever
    changes the two group fields of a slot. *)
Lemma place_team_lookup_ne st i j :
  i ≠ j → teams (place st i) !! j = teams st !! j.
Proof.
  intros Hne. unfold place_team.
  destruct (teams st !! i) as [team|]; [|done].
  destruct (truthy _); [done|].
  destruct (scan_slots _ _ _) as [[[??]?]|]; simpl;
    by rewrite list_lookup_insert_ne.
Qed.

Lemma place_team_roster st i :
  reset_team <$> teams (place st i) = reset_team <$> teams st.
Proof.
  unfold place_team.
  destruct (teams st !! i) as [team|] eqn:Hi; [|done].
  destruct (truthy _); [done|].
  destruct (scan_slots _ _ _) as [[[??]?]|]; simpl;
    rewrite list_fmap_insert; apply list_insert_id;
    by rewrite list_lookup_fmap, Hi.
Qed.

Lemma place_team_frame st i :
  clear_slot <$> time_slots (place st i) = clear_slot <$> time_slots st.
Proof.
  unfold place_team.
  destruct (teams st !! i) as [team|] eqn:Hi; [|done].
  destruct (truthy _); [done|].
  destruct (scan_slots _ _ _) as [[[slot g] slots']|] eqn:Hscan; [|done].
  apply scan_slots_Some in Hscan as (_ & _ & ts & _ & _ & Hts & _ & _ & _ & ->).
  simpl. rewrite fmap_insert, clear_slot_set_group.
  apply insert_id. by rewrite lookup_fmap, Hts.
Qed.


Lemma foldl_place_lookup_notin st l i :
  i ∉ l → teams (foldl place st l) !! i = teams st !! i.
Proof.
  revert st. induction l as [|j l IH]; intros st Hnotin; simpl; [done|].
  apply not_elem_of_cons in Hnotin as [Hne Hnotin].
  rewrite IH by done. by apply place_team_lookup_ne.
Qed.

Lemma foldl_place_roster st l :
  reset_team <$> teams (foldl place st l) = reset_team <$> teams st.
Proof.
  revert st. induction l as [|j l IH]; intros st; simpl; [done|].
  by rewrite IH, place_team_roster.
Qed.

Lemma foldl_place_frame st l :
  clear_slot <$> time_slots (foldl place st l) = clear_slot <$> time_slots st.
Proof.
  revert st. induction l as [|j l IH]; intros st; simpl; [done|].
  by rewrite IH, place_team_frame.
Qed.


End Greedy.

(** ** The processing order *)

Lemma sorted_teams_perm (ts : list Team) :
  sorted_teams ts ≡ₚ seq 0 (length ts).
Proof.
  unfold sorted_teams.
  rewrite (sorted_by_key_perm (λ it : nat * Team, length (available_slots it.2))).
  rewrite fst_zip; [done|]. by rewrite length_seq.
Qed.

Lemma sorted_teams_NoDup (ts : list Team) : NoDup (sorted_teams ts).
Proof. rewrite sorted_teams_perm. apply NoDup_seq. Qed.

Lemma sorted_teams_lookup_lt (ts : list Team) k i :
  sorted_teams ts !! k = Some i → (i < length ts)%nat.
Proof.
  intros Hk. apply list_elem_of_lookup_2 in Hk.
  rewrite sorted_teams_perm in Hk. apply elem_of_seq in Hk. lia.
Qed.


(** The sort only reads the availability lists, which a reset leaves alone. *)
Lemma insert_by_key_fmap {X Y} (g : X → Y) (k : Y → nat) x l :
  insert_by_key k (g x) (g <$> l) = g <$> insert_by_key (k ∘ g) x l.
Proof.
  induction l as [|y l IH]; simpl; [done|].
  destruct (decide _); simpl; [done|]. f_equal. exact IH.
Qed.

Lemma sorted_by_key_fmap {X Y} (g : X → Y) (k : Y → nat) l :
  sorted_by_key k (g <$> l) = g <$> sorted_by_key (k ∘ g) l.
Proof.
  unfold sorted_by_key. induction l as [|y l IH]; [done|].
  rewrite fmap_cons. cbn [foldr]. rewrite IH. apply insert_by_key_fmap.
Qed.

Lemma sorted_teams_reset (ts : list Team) :
  sorted_teams (reset_team <$> ts) = sorted_teams ts.
Proof.
  unfold sorted_teams. rewrite length_fmap.
  replace (zip (seq 0 (length ts)) (reset_team <$> ts))
    with (prod_map id reset_team <$> zip (seq 0 (length ts)) ts).
  - rewrite sorted_by_key_fmap, <-list_fmap_compose. done.
  - generalize (seq 0 (length ts)). induction ts as [|t ts IH]; intros [|n l];
      simpl; try done. by rewrite IH.
Qed.

(** ** The states of the greedy loop *)

Section GreedyStates.

Variable set_order : list Label → list Label.

Lemma greedy_state_S st k i :
  sorted_teams (teams st) !! k = Some i →
  greedy_state set_order st (S k)
  = place_team set_order _get_continuous_slot_priority
               (greedy_state set_order st k) i.
Proof.
  intros Hk. unfold greedy_state.
  by rewrite (take_S_r _ _ _ Hk), foldl_app.
Qed.

Lemma greedy_state_final st :
  schedule_interviews_continuous set_order st
  = greedy_state set_order st (length (sorted_teams (teams st))).
Proof.
  unfold schedule_interviews_continuous, greedy_state. simpl.
  by rewrite sorted_teams_reset, firstn_all.
Qed.


(** A team the loop has not reached yet is as the reset left it. *)
Lemma greedy_state_pending st k k' i :
  (k ≤ k')%nat → sorted_teams (teams st) !! k' = Some i →
  teams (greedy_state set_order st k) !! i = reset_team <$> teams st !! i.
Proof.
  intros Hle Hk'. unfold greedy_state.
  rewrite foldl_place_lookup_notin; [by simpl; rewrite list_lookup_fmap|].
  intros Hin. apply list_elem_of_lookup_1 in Hin as [j Hj].
  apply lookup_take_Some in Hj as [Hj Hlt].
  pose proof (NoDup_lookup _ _ _ _ (sorted_teams_NoDup (teams st)) Hj Hk').
  lia.
Qed.

(** Once the loop has dealt with a team it never touches it again. *)
Lemma greedy_state_settled st k i :
  sorted_teams (teams st) !! k = Some i →
  teams (schedule_interviews_continuous set_order st) !! i
  = teams (greedy_state set_order st (S k)) !! i.
Proof.
  intros Hk. unfold schedule_interviews_continuous, greedy_state. simpl.
  rewrite sorted_teams_reset.
  rewrite <-(take_drop (S k) (sorted_teams (teams st))) at 1.
  rewrite foldl_app. apply foldl_place_lookup_notin.
  intros Hin. apply list_elem_of_lookup_1 in Hin as [j Hj].
  rewrite lookup_drop in Hj.
  pose proof (NoDup_lookup _ _ _ _ (sorted_teams_NoDup (teams st)) Hj Hk).
  lia.
Qed.

End GreedyStates.

(** ** The greedy engine *)


(** A small roster on the empty calendar: two teams that can only come on
    Friday at 19:00 and one that can also come on Saturday morning. *)
Definition roster3 : Scheduler :=
  add_team "R" ["9/13 10:00-10:45"; "9/12 19:00-19:45"] "r@snaac" "010-3"
    (add_team "Q" ["9/12 19:00-19:45"] "q@snaac" "010-2"
       (add_team "P" ["9/12 19:00-19:45"] "p@snaac" "010-1" init)).


(** ** The gap score *)

(** The occupancy of one track on one date, slot by slot in calendar order. *)
Definition track_row (group : Group) (slots : gmap string TimeSlot)
    (date : string) : list bool :=
  omap (λ s, has_team group <$> slots !! s) (date_slots date).

Fixpoint empties (row : list bool) : nat :=
  match row with
  | [] => 0
  | b :: rest => (if b then 0 else 1) + empties rest
  end.

(** The empty slots after the first occupied one. *)
Fixpoint empties_after_first (row : list bool) : nat :=
  match row with
  | [] => 0
  | true :: rest => empties rest
  | false :: rest => empties_after_first rest
  end.

(** The gap score in the words of the specification: the empty slots that
    lie strictly between the first and the last occupied slot. *)
Fixpoint drop_leading_empties (row : list bool) : list bool :=
  match row with
  | false :: rest => drop_leading_empties rest
  | _ => row
  end.

Definition sandwiched_empties (row : list bool) : nat :=
  empties (drop_leading_empties (reverse (drop_leading_empties row))).

Definition spec_gap_score (st : Scheduler) : nat :=
  list_sum (group ← [GroupA; GroupB]; date ← dates;
            [sandwiched_empties (track_row group (time_slots st) date)]).

Lemma gap_step_fold group slots l in_session gap_score :
  foldl (gap_step group slots) (in_session, gap_score) l
  = (in_session || existsb id (omap (λ s, has_team group <$> slots !! s) l),
     gap_score
     + (if in_session
        then empties (omap (λ s, has_team group <$> slots !! s) l)
        else empties_after_first
               (omap (λ s, has_team group <$> slots !! s) l)))%nat.
Proof.
  revert in_session gap_score.
  induction l as [|s l IH]; intros in_session gap_score.
  - destruct in_session; simpl; f_equal; lia.
  - cbn [foldl omap list_omap]. unfold gap_step at 2.
    destruct (slots !! s) as [ts|]; cbn [fmap option_fmap option_map];
      [|apply IH].
    destruct (has_team group ts), in_session; rewrite IH;
      simpl; f_equal; lia.
Qed.

(** C3.  What [_calculate_gap_score] computes: for every track and date, the
    number of empty slots after the first occupied slot of that track on that
    date, the empty slots after the last occupied one included. *)
Theorem calculate_gap_score_counts_later_empties (st : Scheduler) :
  _calculate_gap_score st
  = list_sum (group ← [GroupA; GroupB]; date ← dates;
              [empties_after_first (track_row group (time_slots st) date)]).
Proof.
  unfold _calculate_gap_score, dates, track_row.
  cbn [foldl mbind list_bind mret list_ret app list_sum].
  rewrite !gap_step_fold. unfold list_sum. cbn [snd fold_right]. lia.
Qed.

(** One team that can only come on Friday at 19:00. *)
Definition roster1 : Scheduler :=
  add_team "P" ["9/12 19:00-19:45"] "p@snaac" "010-1" init.

(** C3, the input on which the code and the specification part: the only
    occupied slot is the first of Friday, a contiguous block of one, and the
    three empty slots after it are counted. *)
Lemma gap_score_trailing_empties :
  _calculate_gap_score (schedule_interviews_continuous first_seen_order roster1)
  = 3
  ∧ spec_gap_score (schedule_interviews_continuous first_seen_order roster1)
    = 0.
Proof. split; vm_compute; reflexivity. Qed.


(** ** What the greedy engine decides for a team *)

Lemma analyze_conflict_ext set_order slots (t1 t2 : Team) :
  available_slots t1 = available_slots t2 →
  _analyze_conflict set_order slots t1 = _analyze_conflict set_order slots t2.
Proof. unfold _analyze_conflict. by intros ->. Qed.

Lemma reset_team_idemp (ts : list Team) :
  reset_team <$> (reset_team <$> ts) = reset_team <$> ts.
Proof. rewrite <-list_fmap_compose. by apply list_fmap_ext. Qed.

Lemma clear_slot_idemp (slots : gmap string TimeSlot) :
  clear_slot <$> (clear_slot <$> slots) = clear_slot <$> slots.
Proof. rewrite <-map_fmap_compose. by apply map_fmap_ext. Qed.

Lemma schedule_roster set_order st :
  reset_team <$> teams (schedule_interviews_continuous set_order st)
  = reset_team <$> teams st.
Proof.
  unfold schedule_interviews_continuous. cbn zeta.
  rewrite foldl_place_roster. apply reset_team_idemp.
Qed.

Lemma schedule_frame set_order st :
  clear_slot <$> time_slots (schedule_interviews_continuous set_order st)
  = clear_slot <$> time_slots st.
Proof.
  unfold schedule_interviews_continuous. cbn zeta.
  rewrite foldl_place_frame. apply clear_slot_idemp.
Qed.

Lemma schedule_length set_order st :
  length (teams (schedule_interviews_continuous set_order st))
  = length (teams st).
Proof.
  rewrite <-(length_fmap reset_team), schedule_roster. apply length_fmap.
Qed.

(** Every team is reached once; it ends either placed in a slot of its own
    list, or unplaced with the analyser's reason for the calendar of that
    moment. *)
Lemma greedy_outcome set_order st i t :
  teams (schedule_interviews_continuous set_order st) !! i = Some t →
  ∃ k team,
    sorted_teams (teams st) !! k = Some i ∧ teams st !! i = Some team ∧
    ((∃ slot ts,
        slot ∈ available_slots team ∧
        time_slots (greedy_state set_order st k) !! slot = Some ts ∧
        has_space ts = true ∧
        t = set_assignment (Some slot) (Some (lowest_free ts)) None team)
     ∨ ((∀ s ts, s ∈ all_slots → s ∈ available_slots team →
                 time_slots (greedy_state set_order st k) !! s = Some ts →
                 has_space ts = false) ∧
        t = set_assignment None None
              (Some (_analyze_conflict set_order
                       (time_slots (greedy_state set_order st k)) team))
              team)).
Proof.
  intros Ht.
  assert (i < length (teams st))%nat as Hlt.
  { rewrite <-(schedule_length set_order). by eapply lookup_lt_Some. }
  destruct (lookup_lt_is_Some_2 _ _ Hlt) as [team Hteam].
  assert (i ∈ sorted_teams (teams st)) as Hin.
  { rewrite sorted_teams_perm. apply elem_of_seq. lia. }
  apply list_elem_of_lookup_1 in Hin as [k Hk].
  exists k, team. split_and!; [done..|].
  rewrite (greedy_state_settled _ _ _ _ Hk), (greedy_state_S _ _ _ _ Hk) in Ht.
  pose proof (greedy_state_pending set_order st k k i (le_n _) Hk) as Hpend.
  rewrite Hteam in Hpend. simpl in Hpend.
  destruct (place_team_step set_order _ _ _ Hpend eq_refl)
    as [(slot & ts & pre & post & Hsplit & Hav & Hts & Hsp & Hpre & Heq)
       |[Hnone Heq]];
    rewrite Heq in Ht; simpl in Ht;
    rewrite list_lookup_insert_eq in Ht by (by eapply lookup_lt_Some);
    inversion Ht; subst t.
  - left. by exists slot, ts.
  - right. done.
Qed.

(** ** The conflict analyser *)

(** The label of a team that holds a track of one of the slots [team]
    listed.  A slot whose occupant is the empty name is skipped by the test
    [if ts.group_a_team:]. *)
Definition occupies (slots : gmap string TimeSlot) (team : Team)
    (lab : Label) : Prop :=
  lab.1 ≠ EmptyString ∧
  ∃ s ts, s ∈ available_slots team ∧ slots !! s = Some ts ∧
          occupant lab.2 ts = Some lab.1.

Lemma truthy_Some s : truthy (Some s) = true ↔ s ≠ EmptyString.
Proof.
  unfold truthy. destruct (String.eqb_spec s EmptyString); simpl; split;
    congruence.
Qed.

Lemma truthy_true o :
  truthy o = true ↔ ∃ s, o = Some s ∧ s ≠ EmptyString.
Proof.
  destruct o as [s|].
  - rewrite truthy_Some. split; [by exists s|]. by intros (? & [= <-] & ?).
  - split; [done|]. by intros (? & ? & ?).
Qed.

Lemma conflict_labels_elem ts (lab : Label) :
  lab ∈ conflict_labels ts
  ↔ lab.1 ≠ EmptyString ∧ occupant lab.2 ts = Some lab.1.
Proof.
  destruct lab as [n g]. unfold conflict_labels. rewrite elem_of_app.
  cbn [fst snd]. split.
  - intros [Hin|Hin].
    + destruct (truthy (group_a_team ts)) eqn:Ht;
        [|by apply elem_of_nil in Hin].
      apply truthy_true in Ht as (s & Hs & Hne). rewrite Hs in Hin.
      apply list_elem_of_singleton in Hin. inversion Hin; subst. done.
    + destruct (truthy (group_b_team ts)) eqn:Ht;
        [|by apply elem_of_nil in Hin].
      apply truthy_true in Ht as (s & Hs & Hne). rewrite Hs in Hin.
      apply list_elem_of_singleton in Hin. inversion Hin; subst. done.
  - intros [Hne Hocc]. destruct g; cbn [occupant] in Hocc; [left|right];
      rewrite Hocc, (proj2 (truthy_Some n) Hne);
      by apply list_elem_of_singleton.
Qed.

Lemma conflicting_teams_elem slots team (lab : Label) :
  lab ∈ conflicting_teams slots (available_slots team)
  ↔ occupies slots team lab.
Proof.
  unfold occupies, conflicting_teams.
  induction (available_slots team) as [|s l IH]; simpl.
  - split; [by intros ?%elem_of_nil|].
    by intros (_ & s & ts & ?%elem_of_nil & _).
  - rewrite elem_of_app, IH. split.
    + intros [Hin|(Hne & s' & ts & Hs' & Hts & Hocc)].
      * destruct (slots !! s) as [ts|] eqn:Hts;
          [|by apply elem_of_nil in Hin].
        apply conflict_labels_elem in Hin as [Hne Hocc].
        split; [done|]. exists s, ts. split_and!; [left|done..].
      * split; [done|]. exists s', ts. split_and!; [by right|done..].
    + intros (Hne & s' & ts & Hs' & Hts & Hocc).
      apply elem_of_cons in Hs' as [->|Hs'].
      * left. rewrite Hts. by apply conflict_labels_elem.
      * right. split; [done|]. by exists s', ts.
Qed.

Lemma all_full_true slots avail :
  all_full slots avail = true
  ↔ ∀ s ts, s ∈ avail → slots !! s = Some ts → has_space ts = false.
Proof.
  unfold all_full. rewrite forallb_forall. split.
  - intros H s ts Hs Hts. apply list_elem_of_In in Hs.
    specialize (H s Hs). cbn beta in H. rewrite Hts in H.
    by destruct (has_space ts).
  - intros H s Hs%list_elem_of_In.
    destruct (slots !! s) as [ts|] eqn:Hts; [|done].
    by rewrite (H s ts Hs Hts).
Qed.

Section ConflictAnalyzer.

Variable set_order : list Label → list Label.

(** [list(set(xs))] lists the distinct elements of [xs], in some order. *)
Hypothesis set_order_NoDup : ∀ xs, NoDup (set_order xs).
Hypothesis set_order_elem : ∀ xs x, x ∈ set_order xs ↔ x ∈ xs.

(** C9.  The reason [_analyze_conflict] gives: [NoAvailableSlots] for a team
    with an empty availability list; for a team with a non-empty list all
    of whose slots have both tracks taken, [AllSlotsOccupied] with the first
    three of the distinct labels of the teams that hold those tracks; and
    the indeterminate reason in every other case.  After the greedy run every
    team is either placed and carries no new reason, or unplaced and carries
    the one reason the analyser gave for the calendar at the moment the team
    was handled. *)
Theorem conflict_reason_cases :
  (∀ slots team,
     (available_slots team = [] →
      _analyze_conflict set_order slots team = NoAvailableSlots)
     ∧ (available_slots team ≠ [] →
        (∀ s ts, s ∈ available_slots team → slots !! s = Some ts →
                 has_space ts = false) →
        ∃ occupants,
          _analyze_conflict set_order slots team
          = AllSlotsOccupied (take 3 occupants)
          ∧ NoDup occupants
          ∧ (∀ lab, lab ∈ occupants ↔ occupies slots team lab)
          ∧ (length (take 3 occupants) ≤ 3)%nat)
     ∧ (available_slots team ≠ [] →
        (∃ s ts, s ∈ available_slots team ∧ slots !! s = Some ts ∧
                 has_space ts = true) →
        _analyze_conflict set_order slots team = Indeterminate))
  ∧ (∀ st i t,
       teams (schedule_interviews_continuous set_order st) !! i = Some t →
       (∃ slot, assigned_slot t = Some slot ∧ conflict_reason t = None)
       ∨ (assigned_slot t = None ∧
          ∃ k, conflict_reason t
               = Some (_analyze_conflict set_order
                         (time_slots (greedy_state set_order st k)) t))).
Proof.
  split.
  - intros slots team. unfold _analyze_conflict. split_and!.
    + by intros ->.
    + intros Hne Hfull. apply all_full_true in Hfull.
      destruct (available_slots team) as [|s l] eqn:Hav; [done|].
      rewrite Hfull.
      exists (set_order (conflicting_teams slots (s :: l))).
      split_and!; [done|apply set_order_NoDup| |rewrite length_take; lia].
      intros lab. rewrite set_order_elem, <-Hav.
      apply conflicting_teams_elem.
    + intros Hne (s & ts & Hs & Hts & Hsp).
      destruct (all_full slots (available_slots team)) eqn:Hfull.
      * rewrite all_full_true in Hfull. rewrite (Hfull s ts Hs Hts) in Hsp.
        done.
      * by destruct (available_slots team).
  - intros st i t Ht.
    apply greedy_outcome in Ht as (k & team & _ & _ & Hcase).
    destruct Hcase as [(slot & ts & _ & _ & _ & ->)|[_ ->]].
    + left. by exists slot.
    + right. split; [done|]. by exists k.
Qed.

End ConflictAnalyzer.

Lemma conflict_reason_cases_witness :
  (∀ xs, NoDup (first_seen_order xs))
  ∧ (∀ xs x, x ∈ first_seen_order xs ↔ x ∈ xs)
  ∧ _analyze_conflict first_seen_order (time_slots init)
      (mkTeam "P" [] "p@snaac" "010-1" None None None)
    = NoAvailableSlots.
Proof.
  split; [exact NoDup_remove_dups|]. split; [exact elem_of_remove_dups|].
  exact (proj1 (proj1 (conflict_reason_cases first_seen_order
                         NoDup_remove_dups elem_of_remove_dups)
                  (time_slots init)
                  (mkTeam "P" [] "p@snaac" "010-1" None None None))
           eq_refl).
Defined.

(** ** What the engines write into the team records *)

Lemma restore_team_roster saved t :
  reset_team (restore_team saved t) = reset_team t.
Proof.
  unfold restore_team. by destruct (find _ saved) as [[[[??]?]?]|].
Qed.

Lemma restore_roster st b :
  reset_team <$> teams (restore st b) = reset_team <$> teams st.
Proof.
  unfold restore. destruct (best_team_assignments b); [done|].
  destruct (best_schedule b); [|done]. cbn [teams].
  rewrite <-list_fmap_compose. apply list_fmap_ext.
  intros ???. apply restore_team_roster.
Qed.

Section Roster.

Variable set_order : list Label → list Label.
Variable shuffle : nat → list Team → list Team.
Hypothesis shuffle_perm : ∀ i l, shuffle i l ≡ₚ l.

Lemma run_iteration_roster i st :
  reset_team <$> teams (run_iteration set_order shuffle i st)
  ≡ₚ reset_team <$> teams st.
Proof.
  unfold run_iteration. rewrite schedule_roster. cbn [teams].
  by rewrite shuffle_perm.
Qed.

Lemma optimize_loop_roster n i st b :
  reset_team <$> teams (optimize_loop set_order shuffle n i st b).1
  ≡ₚ reset_team <$> teams st.
Proof.
  revert i st b. induction n as [|n IH]; intros i st b; [done|].
  cbn [optimize_loop]. cbv zeta.
  destruct (improves _ _ b).
  - destruct (_ && _); cbn [fst].
    + apply run_iteration_roster.
    + rewrite IH. apply run_iteration_roster.
  - rewrite IH. apply run_iteration_roster.
Qed.

End Roster.



(** ** The restoration of the best state *)

(** The loops [for slot, team_name in best_schedule[...].items()] *)
Lemma map_fold_alter_lookup (f : string → TimeSlot → TimeSlot)
    (base : gmap string TimeSlot) (src : gmap string string) s :
  map_fold (λ slot team_name m, alter (f team_name) slot m) base src !! s
  = match src !! s with
    | Some team_name => f team_name <$> base !! s
    | None => base !! s
    end.
Proof.
  revert s.
  apply (map_fold_weak_ind
           (λ r m, ∀ s, r !! s = match m !! s with
                                  | Some team_name => f team_name <$> base !! s
                                  | None => base !! s
                                  end)).
  - intros s. by rewrite lookup_empty.
  - intros i x m r Hi IH s. destruct (decide (i = s)) as [->|Hne].
    + rewrite lookup_alter_eq, lookup_insert_eq, IH, Hi. done.
    + rewrite lookup_alter_ne, lookup_insert_ne by done. apply IH.
Qed.

(** The calendar holds none but real names: every occupant is a non-empty
    text. *)
Definition named_occupants (slots : gmap string TimeSlot) : Prop :=
  ∀ s ts g, slots !! s = Some ts → occupant g ts ≠ Some EmptyString.

Lemma truthy_keep (o : option string) :
  o ≠ Some EmptyString → (if truthy o then o else None) = o.
Proof.
  destruct o as [n|]; [|done]. intros Hne.
  rewrite (proj2 (truthy_Some n)); [done|]. congruence.
Qed.

Lemma restore_slots_best (st : Scheduler) (last : gmap string TimeSlot) :
  named_occupants (time_slots st) →
  clear_slot <$> last = clear_slot <$> time_slots st →
  restore_slots (_get_schedule_by_group st) last = time_slots st.
Proof.
  intros Hnamed Hframe. apply map_eq. intros s.
  unfold restore_slots, _get_schedule_by_group. cbn [sched_A sched_B].
  rewrite !map_fold_alter_lookup, !lookup_omap, lookup_fmap.
  assert (clear_slot <$> last !! s = clear_slot <$> time_slots st !! s) as Hs.
  { by rewrite <-!lookup_fmap, Hframe. }
  destruct (time_slots st !! s) as [tb|] eqn:Hb;
    destruct (last !! s) as [tl|] eqn:Hl;
    simpl in Hs; try done; simpl.
  - pose proof (Hnamed s tb GroupA Hb) as Ha.
    pose proof (Hnamed s tb GroupB Hb) as Hb'.
    simpl in Ha, Hb'. rewrite (truthy_keep _ Ha), (truthy_keep _ Hb').
    inversion Hs as [[Hd Ht Hf]].
    destruct tb as [d t f [a|] [b|]], tl as [d' t' f' a' b'];
      simpl in *; subst; done.
Qed.

Lemma names_reset (l : list Team) : name <$> (reset_team <$> l) = name <$> l.
Proof. rewrite <-list_fmap_compose. by apply list_fmap_ext. Qed.

Lemma names_eq (l1 l2 : list Team) :
  reset_team <$> l1 = reset_team <$> l2 → name <$> l1 = name <$> l2.
Proof. intros H. by rewrite <-(names_reset l1), H, names_reset. Qed.

Lemma names_perm (l1 l2 : list Team) :
  reset_team <$> l1 ≡ₚ reset_team <$> l2 → name <$> l1 ≡ₚ name <$> l2.
Proof. intros H. by rewrite <-(names_reset l1), H, names_reset. Qed.

Section Named.

Variable set_order : list Label → list Label.

Lemma place_team_named st i :
  EmptyString ∉ name <$> teams st →
  named_occupants (time_slots st) →
  named_occupants
    (time_slots (place_team set_order _get_continuous_slot_priority st i)).
Proof.
  intros Hnames Hnamed. unfold place_team.
  destruct (teams st !! i) as [team|] eqn:Hi; [|done].
  destruct (truthy _); [done|].
  destruct (scan_slots _ _ _) as [[[slot g] slots']|] eqn:Hscan; [|done].
  apply scan_slots_Some in Hscan
    as (_ & _ & ts & _ & _ & Hts & _ & _ & _ & ->).
  cbn [time_slots]. intros s ts' g' Hs.
  destruct (decide (slot = s)) as [->|Hne].
  - rewrite lookup_insert_eq in Hs. inversion Hs; subst ts'.
    assert (name team ≠ EmptyString) as Hname.
    { intros Heq. apply Hnames. rewrite <-Heq.
      apply list_elem_of_fmap. exists team. split; [done|].
      by eapply list_elem_of_lookup_2. }
    pose proof (Hnamed s ts GroupA Hts). pose proof (Hnamed s ts GroupB Hts).
    destruct g, g'; simpl in *; congruence.
  - rewrite lookup_insert_ne in Hs by done. by eapply Hnamed.
Qed.

Lemma foldl_place_named st l :
  EmptyString ∉ name <$> teams st →
  named_occupants (time_slots st) →
  named_occupants
    (time_slots (foldl (place_team set_order _get_continuous_slot_priority)
                       st l)).
Proof.
  revert st. induction l as [|i l IH]; intros st Hnames Hnamed; [done|].
  cbn [foldl]. apply IH.
  - by rewrite (names_eq _ _ (place_team_roster set_order st i)).
  - by apply place_team_named.
Qed.

Lemma schedule_named st :
  EmptyString ∉ name <$> teams st →
  named_occupants (time_slots (schedule_interviews_continuous set_order st)).
Proof.
  intros Hnames. unfold schedule_interviews_continuous. cbn zeta.
  apply foldl_place_named.
  - cbn [reset teams]. by rewrite names_reset.
  - cbn [reset time_slots]. intros s ts g Hs.
    rewrite lookup_fmap in Hs.
    destruct (time_slots st !! s) as [ts0|]; [|done].
    inversion Hs; subst. by destruct g.
Qed.

End Named.

Lemma find_saved (best : list Team) n (t' : Team) :
  t' ∈ best → NoDup (name <$> best) → n = name t' →
  find (λ e : Saved, bool_decide (n = e.1.1.1)) (save_team <$> best)
  = Some (save_team t').
Proof.
  intros Hin Hnd ->. induction best as [|t0 rest IH]; [by apply elem_of_nil in Hin|].
  rewrite fmap_cons in Hnd. apply NoDup_cons in Hnd as [Hnotin Hnd].
  rewrite fmap_cons. cbn [find]. cbn [save_team fst].
  apply elem_of_cons in Hin as [->|Hin].
  - by rewrite bool_decide_eq_true_2.
  - rewrite bool_decide_eq_false_2; [by apply IH|].
    intros Heq. apply Hnotin. rewrite <-Heq.
    apply list_elem_of_fmap. by exists t'.
Qed.

Lemma restore_team_eq (best : list Team) (t t' : Team) :
  t' ∈ best → NoDup (name <$> best) → reset_team t' = reset_team t →
  restore_team (save_team <$> best) t = t'.
Proof.
  intros Hin Hnd Hreset. unfold restore_team.
  rewrite (find_saved best (name t) t' Hin Hnd).
  - destruct t, t'. cbn in *. by inversion Hreset.
  - destruct t, t'. cbn in *. by inversion Hreset.
Qed.

Lemma restore_teams_perm (best last : list Team) :
  NoDup (name <$> best) →
  reset_team <$> last ≡ₚ reset_team <$> best →
  restore_team (save_team <$> best) <$> last ≡ₚ best.
Proof.
  intros Hnd Hperm.
  assert (restore_team (save_team <$> best) <$> last
          = restore_team (save_team <$> best) <$> (reset_team <$> last)) as ->.
  { rewrite <-list_fmap_compose. apply list_fmap_ext. intros i t Ht.
    assert (reset_team t ∈ reset_team <$> best) as Hin.
    { rewrite <-Hperm. apply list_elem_of_fmap. exists t. split; [done|].
      by eapply list_elem_of_lookup_2. }
    apply list_elem_of_fmap in Hin as (t' & Heq & Hin). cbn.
    rewrite (restore_team_eq best t t' Hin Hnd) by done.
    by rewrite (restore_team_eq best (reset_team t) t' Hin Hnd). }
  rewrite Hperm, <-list_fmap_compose.
  assert (restore_team (save_team <$> best) ∘ reset_team <$> best = best)
    as ->; [|done].
  transitivity (id <$> best); [|apply list_fmap_id].
  apply list_fmap_ext. intros i t' Ht'. cbn.
  apply restore_team_eq; [by eapply list_elem_of_lookup_2|done..].
Qed.

(** ** The optimizer *)

(** The pair the optimizer compares iterations by, and the comparison
    [assigned_count > best_count or (assigned_count == best_count and
    gap_score < best_gap_score)]. *)
Definition score (st : Scheduler) : nat * nat :=
  (assigned_count st, _calculate_gap_score st).

Definition better (s s' : nat * nat) : Prop :=
  (s'.1 < s.1 ∨ (s.1 = s'.1 ∧ s.2 < s'.2))%nat.

(** What the optimizer saves of a state it retains. *)
Definition snapshot (st : Scheduler) : Best :=
  mkBest (Some (_get_schedule_by_group st)) (assigned_count st)
         (Some (_calculate_gap_score st)) (save_team <$> teams st).

Lemma improves_best0 c g : improves c g best0 = true.
Proof.
  unfold improves, best0. cbn.
  destruct c; [done|]. rewrite bool_decide_eq_true_2; [done|lia].
Qed.

Lemma improves_better c g (b : Best) g' :
  best_gap_score b = Some g' →
  improves c g b = true ↔ better (c, g) (best_count b, g').
Proof.
  destruct b as [sch bc bg saved]. cbn [best_gap_score best_count].
  intros ->. unfold improves, better. cbn [best_gap_score best_count fst snd].
  rewrite orb_true_iff, andb_true_iff, !bool_decide_eq_true. done.
Qed.

Lemma improves_snapshot c g st :
  improves c g (snapshot st) = true ↔ better (c, g) (score st).
Proof. exact (improves_better c g (snapshot st) _ eq_refl). Qed.

Lemma better_irrefl s : ¬ better s s.
Proof. unfold better. lia. Qed.

Lemma better_not_trans a b c : ¬ better a b → better c b → ¬ better a c.
Proof. destruct a, b, c. unfold better. cbn [fst snd]. lia. Qed.

Section Optimizer.

Variable set_order : list Label → list Label.
Variable shuffle : nat → list Team → list Team.
Hypothesis shuffle_perm : ∀ i l, shuffle i l ≡ₚ l.

(** The scheduler after [j] passes of the loop body. *)
Fixpoint iter_state (j : nat) (st : Scheduler) : Scheduler :=
  match j with
  | 0 => st
  | S j' => run_iteration set_order shuffle j' (iter_state j' st)
  end.

(** After [m] passes the optimizer holds the snapshot of pass [j], and no
    pass so far scored better than pass [j]. *)
Definition retained (st : Scheduler) (m : nat) (b : Best) : Prop :=
  ∃ j, (j < m)%nat ∧ b = snapshot (iter_state (S j) st) ∧
       ∀ j', (j' < m)%nat →
             ¬ better (score (iter_state (S j') st))
                      (score (iter_state (S j) st)).

Lemma optimize_loop_retained st n i b :
  (i = 0 ∧ b = best0) ∨ retained st i b →
  ∃ m b',
    optimize_loop set_order shuffle n i (iter_state i st) b
    = (iter_state m st, b')
    ∧ (i ≤ m ≤ i + n)%nat ∧ (0 < n → i < m)%nat
    ∧ ((m = 0 ∧ b' = best0) ∨ retained st m b').
Proof.
  revert i b. induction n as [|n IH]; intros i b Hinv.
  - exists i, b. split_and!; try done; lia.
  - cbn [optimize_loop]. cbv zeta.
    change (run_iteration set_order shuffle i (iter_state i st))
      with (iter_state (S i) st).
    destruct (improves _ _ b) eqn:Himp.
    + assert (retained st (S i) (snapshot (iter_state (S i) st))) as Hret.
      { exists i. split_and!; [lia|done|]. intros j' Hj'.
        destruct Hinv as [[-> ->]|(j & Hj & -> & Hbest)].
        - assert (j' = 0) as -> by lia. apply better_irrefl.
        - apply improves_snapshot in Himp.
          destruct (decide (j' = i)) as [->|Hne]; [apply better_irrefl|].
          eapply better_not_trans; [apply Hbest; lia|exact Himp]. }
      destruct (_ && _).
      * exists (S i), (snapshot (iter_state (S i) st)).
        split_and!; try (by right); try done; lia.
      * destruct (IH (S i) _ (or_intror Hret)) as (m & b' & Heq & ? & ? & ?).
        exists m, b'. split_and!; try done; lia.
    + assert (retained st (S i) b) as Hret.
      { destruct Hinv as [[-> ->]|(j & Hj & -> & Hbest)].
        - by rewrite improves_best0 in Himp.
        - exists j. split_and!; [lia|done|]. intros j' Hj'.
          destruct (decide (j' = i)) as [->|Hne].
          + intros Hb. apply improves_snapshot in Hb. congruence.
          + apply Hbest. lia. }
      destruct (IH (S i) _ (or_intror Hret)) as (m & b' & Heq & ? & ? & ?).
      exists m, b'. split_and!; try done; lia.
Qed.

Lemma iter_state_roster j st :
  reset_team <$> teams (iter_state j st) ≡ₚ reset_team <$> teams st.
Proof.
  induction j as [|j IH]; [done|]. cbn [iter_state].
  by rewrite (run_iteration_roster set_order shuffle shuffle_perm).
Qed.

Lemma iter_state_frame j st :
  clear_slot <$> time_slots (iter_state j st) = clear_slot <$> time_slots st.
Proof.
  induction j as [|j IH]; [done|]. cbn [iter_state]. unfold run_iteration.
  by rewrite schedule_frame.
Qed.

Lemma iter_state_named j st :
  EmptyString ∉ name <$> teams st →
  named_occupants (time_slots (iter_state (S j) st)).
Proof.
  intros Hnames. cbn [iter_state]. unfold run_iteration.
  apply schedule_named. cbn [teams]. rewrite shuffle_perm.
  by rewrite (names_perm _ _ (iter_state_roster j st)).
Qed.

End Optimizer.

Lemma restore_snapshot (last best : Scheduler) :
  teams best ≠ [] →
  restore last (snapshot best)
  = mkScheduler (restore_team (save_team <$> teams best) <$> teams last)
                (restore_slots (_get_schedule_by_group best) (time_slots last)).
Proof.
  intros Hne. unfold restore, snapshot.
  cbn [best_team_assignments best_schedule].
  destruct (teams best) as [|t l]; [done|]. by rewrite fmap_cons.
Qed.

(** The figures reported afterwards are read off the calendar and off the
    team records, whatever the order of the list. *)
Lemma reports_perm (st1 st2 : Scheduler) :
  time_slots st1 = time_slots st2 → teams st1 ≡ₚ teams st2 →
  get_schedule_statistics st1 = get_schedule_statistics st2
  ∧ get_unassigned_teams_detail st1 ≡ₚ get_unassigned_teams_detail st2.
Proof.
  intros Hslots Hteams. split.
  - unfold get_schedule_statistics, _calculate_gap_score.
    rewrite Hslots, Hteams. done.
  - unfold get_unassigned_teams_detail. by rewrite Hteams.
Qed.

(** The state [optimize_schedule] ends in: the calendar and the team records
    of the pass it retained, which no executed pass beats. *)
Lemma optimize_schedule_retained (set_order : list Label → list Label)
    (shuffle : nat → list Team → list Team) (max_iterations : nat)
    (st : Scheduler) :
  (∀ i l, shuffle i l ≡ₚ l) →
  (0 < max_iterations)%nat →
  teams st ≠ [] →
  NoDup (name <$> teams st) →
  EmptyString ∉ name <$> teams st →
  ∃ j m,
    (j < m ≤ max_iterations)%nat
    ∧ (∀ j', (j' < m)%nat →
             ¬ better (score (iter_state set_order shuffle (S j') st))
                      (score (iter_state set_order shuffle (S j) st)))
    ∧ (optimize_schedule set_order shuffle max_iterations st).2
      = Some (_get_schedule_by_group (iter_state set_order shuffle (S j) st))
    ∧ time_slots (optimize_schedule set_order shuffle max_iterations st).1
      = time_slots (iter_state set_order shuffle (S j) st)
    ∧ teams (optimize_schedule set_order shuffle max_iterations st).1
      ≡ₚ teams (iter_state set_order shuffle (S j) st)
    ∧ name <$> teams (optimize_schedule set_order shuffle max_iterations st).1
      = name <$> teams (iter_state set_order shuffle m st).
Proof.
  intros Hperm Hmax Hne Hnd Hnames.
  destruct (optimize_loop_retained set_order shuffle st max_iterations 0 best0
              (or_introl (conj eq_refl eq_refl)))
    as (m & b' & Heq & Hm & Hpos & Hret).
  cbn [iter_state] in Heq.
  destruct Hret as [[-> _]|(j & Hj & -> & Hbest)]; [specialize (Hpos Hmax); lia|].
  exists j, m. unfold optimize_schedule. rewrite Heq. cbn [fst snd].
  set (best := iter_state set_order shuffle (S j) st) in *.
  set (last := iter_state set_order shuffle m st) in *.
  assert (reset_team <$> teams last ≡ₚ reset_team <$> teams best) as Hroster.
  { unfold last, best. by rewrite !(iter_state_roster set_order shuffle Hperm). }
  assert (NoDup (name <$> teams best)) as Hndb.
  { unfold best.
    by rewrite (names_perm _ _ (iter_state_roster set_order shuffle Hperm (S j) st)). }
  assert (teams best ≠ []) as Hneb.
  { intros Hnil.
    pose proof (iter_state_roster set_order shuffle Hperm (S j) st) as Hp. fold best in Hp.
    rewrite Hnil in Hp. apply Permutation_nil_l in Hp. symmetry in Hp.
    apply fmap_nil_inv in Hp. done. }
  rewrite (restore_snapshot last best Hneb).
  assert (restore_slots (_get_schedule_by_group best) (time_slots last)
          = time_slots best) as Hslots.
  { apply restore_slots_best.
    - unfold best. by apply iter_state_named.
    - unfold last, best. by rewrite !iter_state_frame. }
  pose proof (restore_teams_perm (teams best) (teams last) Hndb Hroster)
    as Hteams.
  cbn [teams time_slots]. rewrite Hslots.
  split_and!; try done; try lia.
  apply names_eq. rewrite <-list_fmap_compose. apply list_fmap_ext.
  intros ???. apply restore_team_roster.
Qed.

(** C10.  With a positive iteration cap and a non-empty list of teams with
    distinct, non-empty names, [optimize_schedule] ends in the state of the
    pass it retained: pass [j], which no executed pass beats in the order
    "more teams placed, then lower gap score".  The calendar is that of pass
    [j]; every team record is that of pass [j] (the list is a permutation of
    it, in the order of the last shuffle); the returned dictionary is the
    schedule of pass [j]; the statistics and the report of unassigned teams
    computed afterwards are those of pass [j]. *)
Theorem optimizer_restores_best (set_order : list Label → list Label)
    (shuffle : nat → list Team → list Team) (max_iterations : nat)
    (st : Scheduler) :
  (∀ i l, shuffle i l ≡ₚ l) →
  (0 < max_iterations)%nat →
  teams st ≠ [] →
  NoDup (name <$> teams st) →
  EmptyString ∉ name <$> teams st →
  ∃ j m,
    (j < m ≤ max_iterations)%nat
    ∧ (∀ j', (j' < m)%nat →
             ¬ better (score (iter_state set_order shuffle (S j') st))
                      (score (iter_state set_order shuffle (S j) st)))
    ∧ (optimize_schedule set_order shuffle max_iterations st).2
      = Some (_get_schedule_by_group (iter_state set_order shuffle (S j) st))
    ∧ time_slots (optimize_schedule set_order shuffle max_iterations st).1
      = time_slots (iter_state set_order shuffle (S j) st)
    ∧ teams (optimize_schedule set_order shuffle max_iterations st).1
      ≡ₚ teams (iter_state set_order shuffle (S j) st)
    ∧ name <$> teams (optimize_schedule set_order shuffle max_iterations st).1
      = name <$> teams (iter_state set_order shuffle m st)
    ∧ get_schedule_statistics
        (optimize_schedule set_order shuffle max_iterations st).1
      = get_schedule_statistics (iter_state set_order shuffle (S j) st)
    ∧ get_unassigned_teams_detail
        (optimize_schedule set_order shuffle max_iterations st).1
      ≡ₚ get_unassigned_teams_detail
           (iter_state set_order shuffle (S j) st).
Proof.
  intros Hperm Hmax Hne Hnd Hnames.
  destruct (optimize_schedule_retained set_order shuffle max_iterations st
              Hperm Hmax Hne Hnd Hnames)
    as (j & m & Hjm & Hbest & Hret & Hslots & Hteams & Horder).
  exists j, m. split_and!; try done; try lia.
  - by apply reports_perm.
  - by apply reports_perm.
Qed.

(** Three teams of which the third can also come on Saturday morning, and a
    shuffle that keeps the list in the first pass and reverses it in every
    later one. *)
Definition roster_gap : Scheduler :=
  add_team "Q" ["9/12 19:00-19:45"; "9/12 19:45-20:30"] "q@snaac" "010-2"
    (add_team "P" ["9/12 19:00-19:45"; "9/12 19:45-20:30"] "p@snaac" "010-1"
       (add_team "R" ["9/12 19:00-19:45"; "9/13 10:00-10:45"] "r@snaac"
                 "010-3" init)).

Definition reverse_after_first (i : nat) (l : list Team) : list Team :=
  match i with 0 => l | S _ => reverse l end.

Lemma reverse_after_first_perm i l : reverse_after_first i l ≡ₚ l.
Proof. destruct i; [done|apply reverse_Permutation]. Qed.

Lemma optimizer_restores_best_witness :
  (0 < 2)%nat
  ∧ NoDup (name <$> teams roster_gap)
  ∧ ∃ j m,
      (j < m ≤ 2)%nat
      ∧ time_slots (optimize_schedule first_seen_order reverse_after_first 2
                      roster_gap).1
        = time_slots (iter_state first_seen_order reverse_after_first (S j)
                        roster_gap).
Proof.
  assert (NoDup (name <$> teams roster_gap)) as Hnd.
  { apply (bool_decide_unpack _). vm_compute. exact I. }
  assert (EmptyString ∉ name <$> teams roster_gap) as Hnames.
  { apply (bool_decide_unpack _). vm_compute. exact I. }
  assert (teams roster_gap ≠ []) as Hne by discriminate.
  split; [lia|]. split; [exact Hnd|].
  destruct (optimizer_restores_best first_seen_order reverse_after_first 2
              roster_gap reverse_after_first_perm ltac:(lia) Hne Hnd Hnames)
    as (j & m & Hjm & _ & _ & Hslots & _).
  exists j, m. split; [exact Hjm|exact Hslots].
Defined.

(** The second pass places the same three teams with a higher gap score
    than the first; the state after the call scores as the first pass. *)
Lemma optimizer_last_pass_not_best :
  score (iter_state first_seen_order reverse_after_first 1 roster_gap)
  = (3, 5)
  ∧ score (iter_state first_seen_order reverse_after_first 2 roster_gap)
    = (3, 21)
  ∧ score (optimize_schedule first_seen_order reverse_after_first 2
             roster_gap).1
    = (3, 5).
Proof. split_and!; vm_compute; reflexivity. Qed.


(** ** Placements and availability *)

Lemma greedy_containment set_order st (t : Team) slot :
  t ∈ teams (schedule_interviews_continuous set_order st) →
  assigned_slot t = Some slot → slot ∈ available_slots t.
Proof.
  intros Hin Hslot. apply list_elem_of_lookup_1 in Hin as [i Hi].
  apply greedy_outcome in Hi as (k & team & _ & _ & Hcase).
  destruct Hcase as [(slot' & ts & Hav & _ & _ & ->)|[_ ->]];
    cbn in Hslot; [|done].
  inversion Hslot; subst. done.
Qed.

Lemma optimizer_containment set_order shuffle max_iterations st
    (t : Team) slot :
  (∀ i l, shuffle i l ≡ₚ l) →
  (0 < max_iterations)%nat →
  teams st ≠ [] →
  NoDup (name <$> teams st) →
  EmptyString ∉ name <$> teams st →
  t ∈ teams (optimize_schedule set_order shuffle max_iterations st).1 →
  assigned_slot t = Some slot → slot ∈ available_slots t.
Proof.
  intros Hperm Hmax Hne Hnd Hnames Hin Hslot.
  destruct (optimize_schedule_retained set_order shuffle max_iterations st
              Hperm Hmax Hne Hnd Hnames)
    as (j & m & _ & _ & _ & _ & Hteams & _).
  rewrite Hteams in Hin. cbn [iter_state] in Hin. unfold run_iteration in Hin.
  by eapply greedy_containment.
Qed.


(** ** Running the greedy engine again *)

(** [schedule_interviews_continuous] starts by clearing the calendar and the
    result fields of the teams, so a second call in a row rebuilds the state
    the first call left. *)
Theorem schedule_twice set_order st :
  schedule_interviews_continuous set_order
    (schedule_interviews_continuous set_order st)
  = schedule_interviews_continuous set_order st.
Proof.
  assert (reset (schedule_interviews_continuous set_order st) = reset st)
    as Hreset.
  { unfold reset. by rewrite schedule_roster, schedule_frame. }
  unfold schedule_interviews_continuous at 1. cbv zeta. by rewrite Hreset.
Qed.

(** ** The calendar and the team records agree *)

(** Whoever holds a track of a slot is a team whose record names that slot
    and track, and a team whose record names a slot holds a track of it. *)
Definition consistent (st : Scheduler) : Prop :=
  (∀ s ts g n,
     time_slots st !! s = Some ts → occupant g ts = Some n →
     ∃ i t, teams st !! i = Some t ∧ name t = n ∧
            assigned_slot t = Some s ∧ assigned_group t = Some g)
  ∧ (∀ i t s,
       teams st !! i = Some t → assigned_slot t = Some s →
       ∃ ts g, assigned_group t = Some g ∧ time_slots st !! s = Some ts ∧
               occupant g ts = Some (name t)).

Lemma reset_consistent st : consistent (reset st).
Proof.
  split.
  - intros s ts g n Hs Hocc. cbn [reset time_slots] in Hs.
    rewrite lookup_fmap in Hs.
    destruct (time_slots st !! s) as [ts0|]; [|done].
    inversion Hs; subst. by destruct g.
  - intros i t s Hi Hslot. cbn [reset teams] in Hi.
    rewrite list_lookup_fmap in Hi.
    destruct (teams st !! i) as [t0|]; [|done].
    inversion Hi; subst. done.
Qed.

Lemma occupant_set_group g g' v ts :
  occupant g' (set_group g v ts) = if decide (g' = g) then v else occupant g' ts.
Proof. by destruct g, g'. Qed.

Lemma greedy_state_consistent set_order st k :
  (k ≤ length (sorted_teams (teams st)))%nat →
  consistent (greedy_state set_order st k).
Proof.
  induction k as [|k IH]; intros Hk; [apply reset_consistent|].
  destruct (lookup_lt_is_Some_2 (sorted_teams (teams st)) k ltac:(lia))
    as [i Hi].
  destruct (lookup_lt_is_Some_2 (teams st) i (sorted_teams_lookup_lt _ _ _ Hi))
    as [team Hteam].
  pose proof (greedy_state_pending set_order st k k i (le_n _) Hi) as Hpend.
  rewrite Hteam in Hpend. cbn in Hpend.
  destruct (IH ltac:(lia)) as [Hcal Hrec].
  rewrite (greedy_state_S _ _ _ _ Hi).
  set (before := greedy_state set_order st k) in *.
  destruct (place_team_step set_order _ _ _ Hpend eq_refl)
    as [(slot & ts & pre & post & _ & _ & Hts & Hsp & _ & ->)|[_ ->]].
  - destruct (has_space_lowest_free ts Hsp) as [_ Hfree]. split.
    + intros s ts' g n Hs Hocc. cbn [time_slots teams] in *.
      destruct (decide (slot = s)) as [->|Hne].
      * rewrite lookup_insert_eq in Hs. inversion Hs; subst ts'.
        rewrite occupant_set_group in Hocc.
        destruct (decide (g = lowest_free ts)) as [->|Hg].
        -- inversion Hocc; subst n.
           eexists i, _. split_and!;
             [apply list_lookup_insert_eq; by eapply lookup_lt_Some|done..].
        -- destruct (Hcal s ts g n Hts Hocc) as (j & t & Hj & ? & ? & ?).
           exists j, t. split_and!; try done.
           rewrite list_lookup_insert_ne; [done|].
           intros ->. rewrite Hpend in Hj. by inversion Hj; subst.
      * rewrite lookup_insert_ne in Hs by done.
        destruct (Hcal s ts' g n Hs Hocc) as (j & t & Hj & ? & ? & ?).
        exists j, t. split_and!; try done.
        rewrite list_lookup_insert_ne; [done|].
        intros ->. rewrite Hpend in Hj. by inversion Hj; subst.
    + intros j t s Hj Hslot. cbn [time_slots teams] in *.
      destruct (decide (i = j)) as [->|Hne].
      * rewrite list_lookup_insert_eq in Hj by (by eapply lookup_lt_Some).
        inversion Hj; subst t. cbn in Hslot. inversion Hslot; subst s.
        exists (set_group (lowest_free ts) (Some (name team)) ts),
               (lowest_free ts).
        split_and!; [done|by rewrite lookup_insert_eq|].
        rewrite occupant_set_group, decide_True; done.
      * rewrite list_lookup_insert_ne in Hj by done.
        destruct (Hrec j t s Hj Hslot) as (ts' & g & Hg & Hs & Hocc).
        destruct (decide (slot = s)) as [->|Hne'].
        -- rewrite Hts in Hs. inversion Hs; subst ts'.
           exists (set_group (lowest_free ts) (Some (name team)) ts), g.
           split_and!; [done|by rewrite lookup_insert_eq|].
           rewrite occupant_set_group.
           destruct (decide (g = lowest_free ts)) as [->|]; [|done].
           congruence.
        -- exists ts', g. split_and!; [done| |done].
           by rewrite lookup_insert_ne.
  - split.
    + intros s ts g n Hs Hocc. cbn [time_slots teams] in *.
      destruct (Hcal s ts g n Hs Hocc) as (j & t & Hj & ? & ? & ?).
      exists j, t. split_and!; try done.
      rewrite list_lookup_insert_ne; [done|].
      intros ->. rewrite Hpend in Hj. by inversion Hj; subst.
    + intros j t s Hj Hslot. cbn [time_slots teams] in *.
      destruct (decide (i = j)) as [->|Hne].
      * rewrite list_lookup_insert_eq in Hj by (by eapply lookup_lt_Some).
        inversion Hj; subst t. done.
      * rewrite list_lookup_insert_ne in Hj by done. by eapply Hrec.
Qed.

(** After the greedy run the calendar and the team records tell the same
    story, and two team records that name the same slot and track belong to
    teams of the same name: no track of a slot is given twice. *)
Theorem greedy_no_double_booking set_order st :
  consistent (schedule_interviews_continuous set_order st)
  ∧ ∀ i j ti tj s g,
      teams (schedule_interviews_continuous set_order st) !! i = Some ti →
      teams (schedule_interviews_continuous set_order st) !! j = Some tj →
      assigned_slot ti = Some s → assigned_slot tj = Some s →
      assigned_group ti = Some g → assigned_group tj = Some g →
      name ti = name tj.
Proof.
  assert (consistent (schedule_interviews_continuous set_order st)) as Hc.
  { rewrite greedy_state_final. by apply greedy_state_consistent. }
  split; [done|]. intros i j ti tj s g Hi Hj Hsi Hsj Hgi Hgj.
  destruct Hc as [_ Hrec].
  destruct (Hrec i ti s Hi Hsi) as (ts & g1 & Hg1 & Hts & Hocc1).
  destruct (Hrec j tj s Hj Hsj) as (ts' & g2 & Hg2 & Hts' & Hocc2).
  congruence.
Qed.


(** ** The reasons the greedy engine hands out *)

(** The calendar has no slot besides the generated ones. *)
Definition calendar_only (slots : gmap string TimeSlot) : Prop :=
  ∀ s, is_Some (slots !! s) → s ∈ all_slots.

Lemma init_calendar_only : calendar_only (time_slots init).
Proof.
  assert (map_Forall (λ s _, s ∈ all_slots) (time_slots init)) as Hall.
  { apply (bool_decide_unpack _). vm_compute. exact I. }
  intros s [ts Hs]. exact (Hall s ts Hs).
Qed.

Lemma greedy_state_frame set_order st k :
  clear_slot <$> time_slots (greedy_state set_order st k)
  = clear_slot <$> time_slots st.
Proof.
  unfold greedy_state. rewrite foldl_place_frame. apply clear_slot_idemp.
Qed.

(** On a calendar that holds the generated slots and no others, a team the
    greedy run leaves unplaced is told either that it listed no slot or
    that all its slots are taken; the text for an unknown reason is never
    handed out. *)
Theorem greedy_reason_known set_order st i t :
  calendar_only (time_slots st) →
  teams (schedule_interviews_continuous set_order st) !! i = Some t →
  assigned_slot t = None →
  conflict_reason t = Some NoAvailableSlots
  ∨ ∃ sample, conflict_reason t = Some (AllSlotsOccupied sample).
Proof.
  intros Hcal Ht Hslot.
  apply greedy_outcome in Ht as (k & team & _ & _ & Hcase).
  destruct Hcase as [(slot & ts & _ & _ & _ & ->)|[Hfull ->]]; [done|].
  cbn [conflict_reason set_assignment]. unfold _analyze_conflict.
  destruct (available_slots team) as [|s0 rest] eqn:Hav; [by left|].
  right. rewrite (proj2 (all_full_true _ _)); [by eexists|].
  intros s ts Hs Hts. apply (Hfull s ts); [|done..].
  apply Hcal.
  assert (is_Some (clear_slot <$> time_slots st !! s)) as Hsome.
  { rewrite <-lookup_fmap, <-(greedy_state_frame set_order st k), lookup_fmap,
      Hts. by eexists. }
  destruct (time_slots st !! s); [by eexists|by destruct Hsome].
Qed.

(** Three teams that can only come on Friday at 19:00: one too many. *)
Definition roster_clash : Scheduler :=
  add_team "S" ["9/12 19:00-19:45"] "s@snaac" "010-4"
    (add_team "Q" ["9/12 19:00-19:45"] "q@snaac" "010-2"
       (add_team "P" ["9/12 19:00-19:45"] "p@snaac" "010-1" init)).

Lemma greedy_reason_known_witness :
  calendar_only (time_slots roster_clash)
  ∧ ∃ t, teams (schedule_interviews_continuous first_seen_order roster_clash)
           !! 2 = Some t
         ∧ assigned_slot t = None
         ∧ (conflict_reason t = Some NoAvailableSlots
            ∨ ∃ sample, conflict_reason t = Some (AllSlotsOccupied sample)).
Proof.
  split; [exact init_calendar_only|].
  destruct (teams (schedule_interviews_continuous first_seen_order
                     roster_clash) !! 2) as [t|] eqn:Ht;
    [|vm_compute in Ht; discriminate].
  assert (assigned_slot t = None) as Hslot.
  { vm_compute in Ht. by inversion Ht. }
  exists t. split_and!; [done..|].
  exact (greedy_reason_known first_seen_order roster_clash 2 t
           init_calendar_only Ht Hslot).
Defined.


(** ** The statistics after a greedy run *)

Lemma all_slots_nonempty : EmptyString ∉ all_slots.
Proof. apply (bool_decide_unpack _). vm_compute. exact I. Qed.

(** A team record after the greedy run: a slot and a track, or neither. *)
Definition settled (t : Team) : Prop :=
  (truthy (assigned_slot t) = true
   ∧ (assigned_group t = Some GroupA ∨ assigned_group t = Some GroupB))
  ∨ (truthy (assigned_slot t) = false ∧ assigned_group t = None).

Lemma greedy_settled set_order st :
  calendar_only (time_slots st) →
  Forall settled (teams (schedule_interviews_continuous set_order st)).
Proof.
  intros Hcal. apply Forall_lookup. intros i t Ht.
  apply greedy_outcome in Ht as (k & team & _ & _ & Hcase).
  destruct Hcase as [(slot & ts & _ & Hts & _ & ->)|[_ ->]].
  - left. cbn [assigned_slot assigned_group set_assignment]. split.
    + apply truthy_Some. intros ->. apply all_slots_nonempty, Hcal.
      assert (is_Some (clear_slot <$> time_slots st !! EmptyString)) as Hsome.
      { rewrite <-lookup_fmap, <-(greedy_state_frame set_order st k),
          lookup_fmap, Hts. by eexists. }
      destruct (time_slots st !! EmptyString); [by eexists|by destruct Hsome].
    + destruct (lowest_free ts); by (left + right).
  - by right.
Qed.

Lemma settled_counts (l : list Team) :
  Forall settled l →
  (length (filter (λ t, assigned_group t = Some GroupA) l)
   + length (filter (λ t, assigned_group t = Some GroupB) l)
   = length (filter (λ t, truthy (assigned_slot t) = true) l))%nat.
Proof.
  induction 1 as [|t l Ht _ IH]; [done|].
  rewrite !filter_cons.
  destruct Ht as [[Hslot [Hg|Hg]]|[Hslot Hg]];
    repeat (destruct (decide _) as [?|?]); cbn [length];
    try congruence; lia.
Qed.

(** On a calendar that holds the generated slots and no others, the
    figures of [get_schedule_statistics] after a greedy run add up: the
    teams counted for group A and for group B are together the assigned
    teams, and assigned and unassigned teams are together all teams of the
    list. *)
Theorem greedy_statistics_add_up set_order st :
  calendar_only (time_slots st) →
  (group_a_count
     (get_schedule_statistics (schedule_interviews_continuous set_order st))
   + group_b_count
       (get_schedule_statistics (schedule_interviews_continuous set_order st))
   = assigned_teams
       (get_schedule_statistics (schedule_interviews_continuous set_order st))
   ∧ assigned_teams
       (get_schedule_statistics (schedule_interviews_continuous set_order st))
     + unassigned_teams
         (get_schedule_statistics
            (schedule_interviews_continuous set_order st))
     = total_teams
         (get_schedule_statistics
            (schedule_interviews_continuous set_order st))
   ∧ total_teams
       (get_schedule_statistics (schedule_interviews_continuous set_order st))
     = length (teams st))%nat.
Proof.
  intros Hcal. unfold get_schedule_statistics.
  cbn [group_a_count group_b_count assigned_teams unassigned_teams
       total_teams].
  split_and!.
  - apply settled_counts. by apply greedy_settled.
  - pose proof (length_filter (λ t, truthy (assigned_slot t) = true)
                  (teams (schedule_interviews_continuous set_order st))).
    lia.
  - apply schedule_length.
Qed.

Lemma greedy_statistics_add_up_witness :
  calendar_only (time_slots roster_clash)
  ∧ (assigned_teams
       (get_schedule_statistics
          (schedule_interviews_continuous first_seen_order roster_clash))
     + unassigned_teams
         (get_schedule_statistics
            (schedule_interviews_continuous first_seen_order roster_clash))
     = total_teams
         (get_schedule_statistics
            (schedule_interviews_continuous first_seen_order roster_clash)))%nat.
Proof.
  split; [exact init_calendar_only|].
  exact (proj1 (proj2 (greedy_statistics_add_up first_seen_order roster_clash
                         init_calendar_only))).
Defined.


(** ** Saving and restoring the calendar *)

(** The dictionary [_get_schedule_by_group] builds holds all there is to
    know about the occupants: writing it back, the way [optimize_schedule]
    restores its best state, onto any calendar with the same slots gives
    the calendar it was read from, provided no occupant is the empty
    name. *)
Theorem schedule_by_group_round_trip (st : Scheduler)
    (later : gmap string TimeSlot) :
  named_occupants (time_slots st) →
  clear_slot <$> later = clear_slot <$> time_slots st →
  restore_slots (_get_schedule_by_group st) later = time_slots st.
Proof. apply restore_slots_best. Qed.

Lemma schedule_by_group_round_trip_witness :
  named_occupants
    (time_slots (schedule_interviews_continuous first_seen_order roster3))
  ∧ restore_slots
      (_get_schedule_by_group
         (schedule_interviews_continuous first_seen_order roster3))
      (time_slots init)
    = time_slots (schedule_interviews_continuous first_seen_order roster3).
Proof.
  assert (named_occupants
            (time_slots (schedule_interviews_continuous first_seen_order
                           roster3))) as Hnamed.
  { apply schedule_named. apply (bool_decide_unpack _). vm_compute. exact I. }
  split; [exact Hnamed|].
  apply (schedule_by_group_round_trip _ _ Hnamed).
  symmetry. apply (schedule_frame first_seen_order roster3).
Defined.


(** ** The slots of the calendar under the optimizer *)

Lemma restore_slots_frame schedule (slots : gmap string TimeSlot) :
  clear_slot <$> restore_slots schedule slots = clear_slot <$> slots.
Proof.
  apply map_eq. intros s. unfold restore_slots.
  rewrite !lookup_fmap, !map_fold_alter_lookup, lookup_fmap.
  destruct (sched_B schedule !! s), (sched_A schedule !! s),
    (slots !! s) as [ts|]; cbn; try done.
Qed.

Lemma restore_frame st b :
  clear_slot <$> time_slots (restore st b) = clear_slot <$> time_slots st.
Proof.
  unfold restore. destruct (best_team_assignments b); [done|].
  destruct (best_schedule b); [|done]. cbn [time_slots].
  apply restore_slots_frame.
Qed.

Lemma optimize_loop_frame set_order shuffle n i st b :
  clear_slot <$> time_slots (optimize_loop set_order shuffle n i st b).1
  = clear_slot <$> time_slots st.
Proof.
  revert i st b. induction n as [|n IH]; intros i st b; [done|].
  cbn [optimize_loop]. cbv zeta.
  assert (clear_slot <$> time_slots (run_iteration set_order shuffle i st)
          = clear_slot <$> time_slots st) as Hrun.
  { unfold run_iteration. by rewrite schedule_frame. }
  destruct (improves _ _ b).
  - destruct (_ && _); cbn [fst]; [done|]. by rewrite IH.
  - by rewrite IH.
Qed.

(** C4, as the code has it.  The engines write their result into the team
    records and the optimizer reorders the list, but that is all they do to
    the caller's data: after a greedy run the list holds the same teams in
    the same order, each with its name, availability list, e-mail address
    and phone number unchanged, and every slot keeps its date, time and
    identifier; after an optimizer run the list holds the same teams, in the
    order of the last shuffle, and every slot keeps its date, time and
    identifier as well.  Only the fields [assigned_slot],
    [assigned_group] and [conflict_reason] of a team and the two occupants of
    a slot are overwritten. *)
Theorem engines_keep_roster (set_order : list Label → list Label)
    (shuffle : nat → list Team → list Team) (max_iterations : nat)
    (st : Scheduler) :
  (∀ i l, shuffle i l ≡ₚ l) →
  reset_team <$> teams (schedule_interviews_continuous set_order st)
  = reset_team <$> teams st
  ∧ clear_slot <$> time_slots (schedule_interviews_continuous set_order st)
    = clear_slot <$> time_slots st
  ∧ reset_team
      <$> teams (optimize_schedule set_order shuffle max_iterations st).1
    ≡ₚ reset_team <$> teams st
  ∧ clear_slot
      <$> time_slots (optimize_schedule set_order shuffle max_iterations st).1
    = clear_slot <$> time_slots st.
Proof.
  intros Hperm. split_and!.
  - apply schedule_roster.
  - apply schedule_frame.
  - unfold optimize_schedule.
    pose proof (optimize_loop_roster set_order shuffle Hperm
                  max_iterations 0 st best0) as Hloop.
    destruct (optimize_loop _ _ _ _ _ _) as [st' b]. cbn [fst] in *.
    by rewrite restore_roster.
  - unfold optimize_schedule.
    pose proof (optimize_loop_frame set_order shuffle max_iterations 0 st
                  best0) as Hloop.
    destruct (optimize_loop _ _ _ _ _ _) as [st' b]. cbn [fst] in *.
    by rewrite restore_frame.
Qed.

Lemma engines_keep_roster_witness :
  (∀ (i : nat) (l : list Team), reverse l ≡ₚ l)
  ∧ reset_team
      <$> teams (schedule_interviews_continuous first_seen_order roster3)
    = reset_team <$> teams roster3.
Proof.
  split; [intros _ l; apply reverse_Permutation|].
  exact (proj1 (engines_keep_roster first_seen_order (λ _, reverse) 1 roster3
                  (λ _ l, reverse_Permutation l))).
Defined.

(** C4, the input on which the claim fails: the greedy run writes the slot
    into the record of team P, and one optimizer pass whose shuffle reverses
    the list leaves the caller's list reversed. *)
Lemma engines_overwrite_team_records :
  assigned_slot <$> teams roster1 = [None]
  ∧ assigned_slot
      <$> teams (schedule_interviews_continuous first_seen_order roster1)
    = [Some "9/12 19:00-19:45"]
  ∧ name <$> teams roster3 = ["P"; "Q"; "R"]
  ∧ name <$> teams (optimize_schedule first_seen_order (λ _, reverse) 1
                      roster3).1
    = ["R"; "Q"; "P"].
Proof. split_and!; vm_compute; reflexivity. Qed.


(** ** Teams that share a name *)

(** Two teams with the same name, each with a slot of its own. *)
Definition roster_same_name : Scheduler :=
  add_team "X" ["9/12 19:45-20:30"] "x2@snaac" "010-2"
    (add_team "X" ["9/12 19:00-19:45"] "x1@snaac" "010-1" init).

(** C10, the input on which the claim fails: a positive cap, a list that is
    not empty, and a single pass, which is the retained one.  The pass
    places the first team at 19:00 and the second at 19:45.  The
    restoration looks every team up by name and takes the first saved
    record of that name, so the second team ends with the slot of the
    first: the team records after the call are not those of the retained
    pass. *)
Lemma optimizer_restores_by_name :
  assigned_slot
    <$> teams (iter_state first_seen_order (λ _ l, l) 1 roster_same_name)
  = [Some "9/12 19:00-19:45"; Some "9/12 19:45-20:30"]
  ∧ assigned_slot
      <$> teams (optimize_schedule first_seen_order (λ _ l, l) 1
                   roster_same_name).1
    = [Some "9/12 19:00-19:45"; Some "9/12 19:00-19:45"]
  ∧ available_slots
      <$> teams (optimize_schedule first_seen_order (λ _ l, l) 1
                   roster_same_name).1
    = [["9/12 19:00-19:45"]; ["9/12 19:45-20:30"]].
Proof. split_and!; vm_compute; reflexivity. Qed.

(** ** The schedule the optimizer returns *)

Lemma reset_team_eq (t1 t2 : Team) :
  reset_team t1 = reset_team t2 →
  name t1 = name t2 ∧ available_slots t1 = available_slots t2.
Proof. destruct t1, t2. cbn. intros Heq. by inversion Heq. Qed.

Lemma greedy_calendar_within set_order st s ts g n :
  time_slots (schedule_interviews_continuous set_order st) !! s = Some ts →
  occupant g ts = Some n →
  ∃ t, t ∈ teams st ∧ name t = n ∧ s ∈ available_slots t.
Proof.
  intros Hs Hocc.
  assert (consistent (schedule_interviews_continuous set_order st))
    as [Hcal _].
  { rewrite greedy_state_final. by apply greedy_state_consistent. }
  destruct (Hcal s ts g n Hs Hocc) as (i & t' & Hi & Hname & Hslot & _).
  assert (s ∈ available_slots t') as Hav.
  { eapply greedy_containment; [|done]. by eapply list_elem_of_lookup_2. }
  assert (reset_team <$> teams st !! i = Some (reset_team t')) as Hroster.
  { by rewrite <-list_lookup_fmap, <-(schedule_roster set_order st),
      list_lookup_fmap, Hi. }
  destruct (teams st !! i) as [t0|] eqn:H0; [|done].
  exists t0. cbn in Hroster. apply (inj Some) in Hroster.
  apply reset_team_eq in Hroster as [Hn Ha].
  split_and!; [by eapply list_elem_of_lookup_2| |]; congruence.
Qed.

Lemma optimizer_returned_within set_order shuffle max_iterations st
    schedule slot n :
  (∀ i l, shuffle i l ≡ₚ l) →
  (optimize_schedule set_order shuffle max_iterations st).2 = Some schedule →
  sched_A schedule !! slot = Some n ∨ sched_B schedule !! slot = Some n →
  ∃ t, t ∈ teams st ∧ name t = n ∧ slot ∈ available_slots t.
Proof.
  intros Hperm Hret Hentry. unfold optimize_schedule in Hret.
  destruct (optimize_loop_retained set_order shuffle st max_iterations 0 best0
              (or_introl (conj eq_refl eq_refl)))
    as (m & b' & Heq & _ & _ & Hkept).
  cbn [iter_state] in Heq. rewrite Heq in Hret. cbn [snd] in Hret.
  destruct Hkept as [[_ ->]|(j & _ & -> & _)]; [done|].
  remember (iter_state set_order shuffle (S j) st) as best eqn:Hbest.
  cbn [best_schedule snapshot] in Hret. apply (inj Some) in Hret.
  subst schedule. clear Heq.
  assert (∃ ts g, time_slots best !! slot = Some ts ∧ occupant g ts = Some n)
    as (ts & g & Hts & Hocc).
  { unfold _get_schedule_by_group in Hentry. cbn [sched_A sched_B] in Hentry.
    rewrite !lookup_omap in Hentry.
    destruct (time_slots best !! slot) as [ts|];
      [|cbn in Hentry; by destruct Hentry].
    cbn in Hentry. destruct Hentry as [Ha|Hb].
    - exists ts, GroupA. split; [done|].
      by destruct (truthy (group_a_team ts)).
    - exists ts, GroupB. split; [done|].
      by destruct (truthy (group_b_team ts)). }
  subst best. cbn [iter_state] in Hts. unfold run_iteration in Hts.
  destruct (greedy_calendar_within _ _ _ _ _ _ Hts Hocc)
    as (t & Hin & Hname & Hav).
  cbn [teams] in Hin. rewrite Hperm in Hin.
  assert (reset_team t ∈ reset_team <$> teams st) as Hreset.
  { rewrite <-(iter_state_roster set_order shuffle Hperm j st).
    apply list_elem_of_fmap. by exists t. }
  apply list_elem_of_fmap in Hreset as (t0 & Heq & Hin0).
  exists t0. apply reset_team_eq in Heq as [Hn Ha].
  split_and!; [done| |]; congruence.
Qed.

End AdvancedFacts.

(** * Facts about core/scheduler_engine.py *)
Module ExactFacts.
Import ExactSolver.

(** ** Small engines *)

(** An engine built on a single half-hour slot, staffed by group A. *)
Definition slot0 : InterviewSlot := mkSlot 0 0 540 570 A.

Definition one_slot : list InterviewSlot := [slot0].

Definition team1 : Team := mkTeam "t1" "Team 1" [].
Definition team2 : Team := mkTeam "t2" "Team 2" [].
Definition team3 : Team := mkTeam "t3" "Team 3" [].

(** The valuation that sets every variable to 0. *)
Definition all_zero : Solution :=
  mkSolution (λ _ _ _, false) (λ _ _, false) (λ _ _, false).

(** ** From the constraints to the extracted schedule *)

Lemma sum_vars_true (vars : list bool) : sum_vars vars ≠ 0 → true ∈ vars.
Proof.
  unfold sum_vars. induction vars as [|[] vars IH]; simpl; intros H.
  - done.
  - by left.
  - right. by apply IH.
Qed.

(** Constraint 1 puts every team on some slot, and the extraction finds
    one. *)
Lemma assigned_once_placed time_slots sol teams team :
  time_slots ≠ [] →
  team_assigned_once time_slots sol teams = true →
  team ∈ teams →
  ∃ slot, find (placed_on sol team) time_slots = Some slot ∧ slot ∈ time_slots.
Proof.
  intros Hne Hall Hin. unfold team_assigned_once in Hall.
  rewrite forallb_forall in Hall.
  specialize (Hall team (proj1 (list_elem_of_In _ _) Hin)). cbn beta zeta in Hall.
  assert (true ∈ (slot ← time_slots; group ← groups;
                  [schedule_vars sol (team_id team) (slot_id slot) group]))
    as Htrue.
  { destruct time_slots as [|s0 rest]; [done|].
    destruct (_ ≫= _) as [|v vs] eqn:Hvars in Hall |- *.
    - exfalso. cbn in Hvars. discriminate.
    - apply bool_decide_eq_true in Hall. apply sum_vars_true. lia. }
  apply list_elem_of_bind in Htrue as (slot & Hg & Hslot).
  apply list_elem_of_bind in Hg as (g & Hv & Hgin).
  apply list_elem_of_singleton in Hv.
  destruct (find (placed_on sol team) time_slots) as [slot'|] eqn:Hfind.
  - exists slot'. split; [done|]. apply find_some in Hfind as [Hin' _].
    by apply list_elem_of_In.
  - exfalso. apply list_elem_of_In in Hslot.
    pose proof (find_none _ _ Hfind slot Hslot) as Hnot.
    unfold placed_on in Hnot.
    assert (existsb (λ group, schedule_vars sol (team_id team) (slot_id slot) group)
                    groups = true) as Hex.
    { apply existsb_exists. exists g. split; [by apply list_elem_of_In|done]. }
    congruence.
Qed.

Lemma extract_solution_slots time_slots sol teams schedule :
  schedule ∈ _extract_solution time_slots sol teams →
  team schedule ∈ teams ∧ interview_slot schedule ∈ time_slots
  ∧ placed_on sol (team schedule) (interview_slot schedule) = true.
Proof.
  unfold _extract_solution. intros Hin.
  apply list_elem_of_omap in Hin as (t & Ht & Hf).
  destruct (find (placed_on sol t) time_slots) as [slot|] eqn:Hfind; [|done].
  inversion Hf; subst. cbn.
  apply find_some in Hfind as [Hin Hp].
  split_and!; [done|by apply list_elem_of_In|done].
Qed.

Lemma extract_solution_length time_slots sol teams :
  time_slots ≠ [] →
  team_assigned_once time_slots sol teams = true →
  length (_extract_solution time_slots sol teams) = length teams.
Proof.
  intros Hne Hall. unfold _extract_solution.
  assert (∀ t, t ∈ teams →
               is_Some (find (placed_on sol t) time_slots)) as Hplaced.
  { intros t Ht.
    destruct (assigned_once_placed _ _ _ _ Hne Hall Ht) as (slot & -> & _).
    by eexists. }
  clear Hall. induction teams as [|t teams IH]; [done|]. cbn.
  destruct (Hplaced t ltac:(left)) as [slot ->]. cbn.
  f_equal. apply IH. intros t' Ht'. apply Hplaced. by right.
Qed.


(** ** Double booking *)

(** C1, what the exact solver's model allows.  The model has a variable for
    every team, slot and group, and caps every (slot, group) pair at one
    team, although a slot object already belongs to one group; the
    extraction keeps the slot and drops the variable's group.  With more
    teams than slot objects every answer that meets the constraints
    therefore puts two teams on the same slot object. *)
Theorem exact_solver_overbooks (time_slots : list InterviewSlot)
    (sol : Solution) (teams : list Team) (constraints : InterviewConstraint) :
  time_slots ≠ [] →
  (length time_slots < length teams)%nat →
  satisfies time_slots sol teams constraints = true →
  ¬ NoDup (interview_slot <$> _extract_solution time_slots sol teams).
Proof.
  intros Hne Hlt Hsat Hnd.
  unfold satisfies, _add_basic_constraints in Hsat.
  repeat (apply andb_prop in Hsat as [Hsat ?]).
  pose proof (extract_solution_length _ _ _ Hne Hsat) as Hlen.
  assert (interview_slot <$> _extract_solution time_slots sol teams
          ⊆+ time_slots) as Hsub.
  { apply NoDup_submseteq; [done|]. intros slot Hin.
    apply list_elem_of_fmap in Hin as (schedule & -> & Hin).
    by apply extract_solution_slots in Hin as (_ & ? & _). }
  apply submseteq_length in Hsub. rewrite length_fmap in Hsub. lia.
Qed.

(** Team 1 on the variable of group A and team 2 on the variable of group B
    of the one slot. *)
Definition both_groups : Solution :=
  mkSolution
    (λ id slot g, bool_decide (slot = 0)
                  && match g with
                     | A => bool_decide (id = "t1")
                     | B => bool_decide (id = "t2")
                     end)
    (λ _ _, false)
    (λ id g, bool_decide (id = "t1") && bool_decide (g = A)).

Lemma exact_solver_overbooks_witness :
  satisfies one_slot both_groups [team1; team2] default_constraint = true
  ∧ ¬ NoDup (interview_slot
               <$> _extract_solution one_slot both_groups [team1; team2]).
Proof.
  assert (satisfies one_slot both_groups [team1; team2] default_constraint
          = true) as Hsat by (vm_compute; reflexivity).
  split; [exact Hsat|].
  apply (exact_solver_overbooks one_slot both_groups [team1; team2]
           default_constraint); [discriminate|cbn; lia|exact Hsat].
Defined.

(** C1, a failing input on the default calendar: two teams, the first on the
    variable of group A and the second on the variable of group B of the
    first slot.  The answer meets every constraint, both teams are given the
    first slot (of group A), and [validate_solution] reports the slot
    conflict. *)
Lemma exact_solver_double_booking :
  satisfies _generate_default_time_slots both_groups [team1; team2]
            default_constraint = true
  ∧ (λ s, (team_id (team s), slot_id (interview_slot s),
           group (interview_slot s)))
      <$> _extract_solution _generate_default_time_slots both_groups
                            [team1; team2]
    = [("t1", 0, A); ("t2", 0, A)]
  ∧ slot_conflicts []
      (_extract_solution _generate_default_time_slots both_groups
                         [team1; team2])
    = [(0, A)].
Proof. split_and!; vm_compute; reflexivity. Qed.


(** ** A strategy without a solution *)

Lemma three_teams_one_slot_infeasible sol constraints :
  satisfies one_slot sol [team1; team2; team3] constraints = false.
Proof.
  unfold satisfies, _add_basic_constraints.
  assert (team_assigned_once one_slot sol [team1; team2; team3]
          && slot_capacity one_slot sol [team1; team2; team3] = false) as ->;
    [|done].
  unfold team_assigned_once, slot_capacity, one_slot, groups, sum_vars. cbn.
  repeat match goal with
         | |- context [schedule_vars sol ?a ?b ?c] =>
             destruct (schedule_vars sol a b c)
         end; reflexivity.
Qed.

(** C6, what the code does with a strategy the solver cannot solve:
    [_generate_single_option] returns [None] for it and
    [generate_five_options] leaves it out, so the output holds no option of
    that strategy, and fewer than five options in all. *)
Theorem infeasible_strategy_dropped (time_slots : list InterviewSlot)
    (solve : OptimizationStrategy → CpStatus * Solution) (teams : list Team)
    (options : list SchedulingOption) (strategy : OptimizationStrategy) :
  generate_five_options time_slots solve teams = Some options →
  (solve strategy).1 = INFEASIBLE →
  (∀ option, option ∈ options → strategy_type option ≠ strategy)
  ∧ (length options < 5)%nat.
Proof.
  unfold generate_five_options. destruct teams as [|t teams]; [done|].
  intros Heq Hinf. apply (inj Some) in Heq. subst options. split.
  - intros option Hin.
    apply list_elem_of_omap in Hin as ([s n] & _ & Hf).
    unfold _generate_single_option in Hf. intros <-.
    destruct (_set_objective_function (t :: teams) s); [|discriminate].
    destruct (solve s).1 eqn:Hst; try discriminate;
      destruct (_extract_solution _ _ _); cbn in Hf; try discriminate;
      inversion Hf; subst; cbn in Hinf; congruence.
  - unfold strategies, _generate_single_option, _set_objective_function.
    cbn [omap list_omap].
    destruct strategy; rewrite ?Hinf; cbn;
      repeat match goal with
             | |- context [match ?x with _ => _ end] => destruct x; cbn
             end; lia.
Qed.

Lemma infeasible_strategy_dropped_witness :
  generate_five_options one_slot (λ _, (INFEASIBLE, all_zero))
                        [team1; team2; team3] = Some []
  ∧ (∀ option, option ∈ @nil SchedulingOption →
               strategy_type option ≠ FIRST_PREFERENCE)
  ∧ (length (@nil SchedulingOption) < 5)%nat.
Proof.
  split; [reflexivity|].
  exact (infeasible_strategy_dropped one_slot (λ _, (INFEASIBLE, all_zero))
           [team1; team2; team3] [] FIRST_PREFERENCE eq_refl eq_refl).
Defined.

(** C6, a failing input: three teams on an engine with a single slot.  No
    valuation meets the constraints (two tracks, three teams), the solver
    answers INFEASIBLE for every strategy, and the call returns the empty
    list: no partial result and no entry for any of the five strategies. *)
Lemma infeasible_strategies_vanish :
  (∀ sol constraints,
     satisfies one_slot sol [team1; team2; team3] constraints = false)
  ∧ generate_five_options one_slot (λ _, (INFEASIBLE, all_zero))
                          [team1; team2; team3]
    = Some [].
Proof. split; [apply three_teams_one_slot_infeasible|reflexivity]. Qed.


(** ** Interviewer avoidance *)

(** The property of a schedule entry that the avoidance constraint is meant
    to secure: no interviewer who avoids the team belongs to the group of the
    team's slot. *)
Definition respects_avoidance (constraints : InterviewConstraint)
    (schedule : Schedule) : bool :=
  forallb (λ '(interviewer_id, avoided_teams),
    match interviewer_groups constraints !! interviewer_id with
    | None => true
    | Some interviewer_group =>
        if bool_decide (interviewer_group = EmptyString) then true
        else
          negb (bool_decide (team_id (team schedule) ∈ avoided_teams)
                && bool_decide (group_enum interviewer_group
                                = group (interview_slot schedule)))
    end) (map_to_list (interviewer_avoidance constraints)).

(** Interviewer iv1 of group A avoids team 1. *)
Definition avoid_A : InterviewConstraint :=
  mkConstraint {["iv1" := ["t1"]]} {["iv1" := "A"]}.

(** Team 1 on the variable of group B of the first slot. *)
Definition cross_group : Solution :=
  mkSolution (λ id slot g, bool_decide (id = "t1") && bool_decide (slot = 0)
                           && bool_decide (g = B))
             (λ _ _, false) (λ _ _, false).

(** C7, a failing input on the default calendar.  The avoidance constraint
    sets the team's group variable for group A to 0, which binds the
    variables of group A on the slots of group A only.  The variable of
    group B on the first slot, a slot of group A, stays free: the answer
    that sets it meets every constraint, and the extraction places team 1 on
    that slot of group A, with the interviewer it avoids. *)
Lemma avoidance_not_respected :
  satisfies _generate_default_time_slots cross_group [team1] avoid_A = true
  ∧ (λ s, (team_id (team s), slot_id (interview_slot s),
           group (interview_slot s)))
      <$> _extract_solution _generate_default_time_slots cross_group [team1]
    = [("t1", 0, A)]
  ∧ forallb (respects_avoidance avoid_A)
            (_extract_solution _generate_default_time_slots cross_group
                               [team1])
    = false.
Proof. split_and!; vm_compute; reflexivity. Qed.


(** ** The conflict check of [validate_solution] *)

(** The key [validate_solution] files a schedule entry under. *)
Definition slot_key (schedule : Schedule) : nat * InterviewGroup :=
  (slot_id (interview_slot schedule), group (interview_slot schedule)).

Lemma slot_conflicts_nil seen schedules :
  slot_conflicts seen schedules = []
  ↔ NoDup (slot_key <$> schedules)
    ∧ ∀ key, key ∈ slot_key <$> schedules → key ∉ seen.
Proof.
  revert seen. induction schedules as [|schedule rest IH]; intros seen.
  - cbn. split; [|done]. intros _. split; [constructor|].
    by intros key ?%elem_of_nil.
  - cbn [slot_conflicts]. fold (slot_key schedule). rewrite fmap_cons.
    case_bool_decide as Hseen.
    + split; [done|]. intros [_ Hfresh]. exfalso.
      apply (Hfresh (slot_key schedule)); [by left|done].
    + rewrite IH, NoDup_cons. split.
      * intros [Hnd Hfresh]. split_and!; [|done|].
        -- intros Hin. apply (Hfresh _ Hin). by left.
        -- intros key [->|Hin]%elem_of_cons; [done|].
           intros Hs. apply (Hfresh _ Hin). by right.
      * intros [[Hnotin Hnd] Hfresh]. split; [done|].
        intros key Hin [->|Hs]%elem_of_cons; [done|].
        apply (Hfresh key); [by right|done].
Qed.

Lemma slot_conflicts_elem seen schedules key :
  key ∈ slot_conflicts seen schedules
  ↔ ∃ j, (slot_key <$> schedules) !! j = Some key
         ∧ (key ∈ seen
            ∨ ∃ i, (i < j)%nat ∧ (slot_key <$> schedules) !! i = Some key).
Proof.
  revert seen. induction schedules as [|schedule rest IH]; intros seen.
  - cbn. split; [by intros ?%elem_of_nil|]. by intros (j & ? & _).
  - cbn [slot_conflicts]. fold (slot_key schedule). rewrite fmap_cons.
    case_bool_decide as Hseen.
    + rewrite elem_of_cons, IH. split.
      * intros [->|(j & Hj & Hcase)].
        -- exists 0. split; [done|by left].
        -- exists (S j). split; [done|].
           destruct Hcase as [?|(i & ? & ?)]; [by left|].
           right. exists (S i). split; [lia|done].
      * intros ([|j] & Hj & Hcase); cbn in Hj.
        -- left. by inversion Hj.
        -- destruct Hcase as [?|([|i] & Hlt & Hi)]; cbn in *.
           ++ right. exists j. split; [done|by left].
           ++ left. by inversion Hi.
           ++ right. exists j. split; [done|]. right. exists i.
              split; [lia|done].
    + rewrite IH. split.
      * intros (j & Hj & Hcase). exists (S j). split; [done|].
        destruct Hcase as [[->|?]%elem_of_cons|(i & ? & ?)].
        -- right. exists 0. split; [lia|done].
        -- by left.
        -- right. exists (S i). split; [lia|done].
      * intros ([|j] & Hj & Hcase); cbn in Hj.
        -- inversion Hj; subst key.
           destruct Hcase as [?|(i & ? & _)]; [done|lia].
        -- exists j. split; [done|].
           destruct Hcase as [?|([|i] & Hlt & Hi)]; cbn in *.
           ++ left. apply elem_of_cons. by right.
           ++ left. apply elem_of_cons. left. by inversion Hi.
           ++ right. exists i. split; [lia|done].
Qed.

(** [validate_solution] reports no slot conflict exactly when no two
    entries of the schedule list have the same slot identifier and group,
    and the keys it reports are exactly the keys that come up at two
    positions of the list. *)
Theorem validate_no_conflict schedules :
  (slot_conflicts [] schedules = [] ↔ NoDup (slot_key <$> schedules))
  ∧ ∀ key,
      key ∈ slot_conflicts [] schedules
      ↔ ∃ i j, (i < j)%nat
               ∧ (slot_key <$> schedules) !! i = Some key
               ∧ (slot_key <$> schedules) !! j = Some key.
Proof.
  split.
  - rewrite slot_conflicts_nil. split; [by intros [? _]|].
    intros Hnd. split; [done|]. by intros key _ ?%elem_of_nil.
  - intros key. rewrite slot_conflicts_elem. split.
    + intros (j & Hj & [?%elem_of_nil|(i & ? & ?)]); [done|].
      by exists i, j.
    + intros (i & j & ? & ? & ?). exists j. split; [done|].
      right. by exists i.
Qed.

(** ** The extraction *)

Lemma extract_solution_teams time_slots sol teams :
  (∀ t, t ∈ teams → is_Some (find (placed_on sol t) time_slots)) →
  team <$> _extract_solution time_slots sol teams = teams.
Proof.
  unfold _extract_solution. induction teams as [|t teams IH]; [done|].
  intros Hplaced. cbn [omap list_omap].
  destruct (Hplaced t ltac:(left)) as [slot ->]. cbn. f_equal.
  apply IH. intros t' Ht'. apply Hplaced. by right.
Qed.

(** When the calendar is not empty, an answer that meets the constraints
    gives the extraction one entry per team, in the order of the team list;
    the slot of an entry is a slot of the calendar on which one of the
    team's variables is set. *)
Theorem extract_one_entry_per_team time_slots sol teams constraints :
  time_slots ≠ [] →
  satisfies time_slots sol teams constraints = true →
  team <$> _extract_solution time_slots sol teams = teams
  ∧ ∀ schedule, schedule ∈ _extract_solution time_slots sol teams →
                interview_slot schedule ∈ time_slots
                ∧ placed_on sol (team schedule) (interview_slot schedule)
                  = true.
Proof.
  intros Hne Hsat. unfold satisfies, _add_basic_constraints in Hsat.
  repeat (apply andb_prop in Hsat as [Hsat ?]). split.
  - apply extract_solution_teams. intros t Ht.
    destruct (assigned_once_placed _ _ _ _ Hne Hsat Ht) as (slot & -> & _).
    by eexists.
  - intros schedule Hin.
    by apply extract_solution_slots in Hin as (_ & ? & ?).
Qed.

Lemma extract_one_entry_per_team_witness :
  satisfies one_slot both_groups [team1; team2] default_constraint = true
  ∧ team <$> _extract_solution one_slot both_groups [team1; team2]
    = [team1; team2].
Proof.
  assert (satisfies one_slot both_groups [team1; team2] default_constraint
          = true) as Hsat by (vm_compute; reflexivity).
  split; [exact Hsat|].
  refine (proj1 (extract_one_entry_per_team one_slot both_groups
                   [team1; team2] default_constraint _ Hsat)).
  discriminate.
Defined.

(** ** Overlapping time ranges *)

(** Two non-empty ranges of minutes overlap for [_time_ranges_overlap]
    exactly when they have a minute in common; ranges that only touch do
    not overlap. *)
Theorem time_ranges_overlap_common_minute (start1 end1 start2 end2 : nat) :
  (start1 < end1)%nat → (start2 < end2)%nat →
  _time_ranges_overlap start1 end1 start2 end2 = true
  ↔ ∃ minute, (start1 ≤ minute < end1)%nat ∧ (start2 ≤ minute < end2)%nat.
Proof.
  intros H1 H2. unfold _time_ranges_overlap.
  rewrite andb_true_iff, !bool_decide_eq_true. split.
  - intros [Ha Hb]. exists (Nat.max start1 start2). lia.
  - intros (minute & Ha & Hb). lia.
Qed.

Lemma time_ranges_overlap_common_minute_witness :
  (540 < 570)%nat ∧ (570 < 600)%nat
  ∧ (_time_ranges_overlap 540 570 570 600 = true
     ↔ ∃ minute, (540 ≤ minute < 570)%nat ∧ (570 ≤ minute < 600)%nat).
Proof.
  split; [lia|]. split; [lia|].
  apply time_ranges_overlap_common_minute; lia.
Defined.


(** ** What the avoidance constraint does secure *)

Lemma sum_vars_zero (vars : list bool) b :
  sum_vars vars = 0 → b ∈ vars → b = false.
Proof.
  unfold sum_vars. induction vars as [|[] vars IH]; cbn; intros Hsum Hin.
  - by apply elem_of_nil in Hin.
  - lia.
  - apply elem_of_cons in Hin as [->|Hin]; [done|]. by apply IH.
Qed.

(** When an interviewer with a group avoids a team, an answer that meets
    the constraints sets to 0 the team's variable for that group on every
    slot that belongs to that group.  (The team's variable for that group
    on a slot of the other group is not bound by it.) *)
Theorem avoidance_binds_own_group time_slots sol teams constraints
    interviewer_id avoided_teams interviewer_group avoided_team slot :
  satisfies time_slots sol teams constraints = true →
  interviewer_avoidance constraints !! interviewer_id = Some avoided_teams →
  interviewer_groups constraints !! interviewer_id = Some interviewer_group →
  interviewer_group ≠ EmptyString →
  team_id avoided_team ∈ avoided_teams →
  avoided_team ∈ teams →
  slot ∈ time_slots → group slot = group_enum interviewer_group →
  schedule_vars sol (team_id avoided_team) (slot_id slot)
                (group_enum interviewer_group) = false.
Proof.
  intros Hsat Havoid Hgroup Hne Hin Hteam Hslot Hg.
  unfold satisfies in Hsat. apply andb_prop in Hsat as [Hbasic Hiv].
  unfold _add_basic_constraints in Hbasic.
  apply andb_prop in Hbasic as [Hbasic _].
  apply andb_prop in Hbasic as [_ Hcons].
  (* the group variable is 0 *)
  assert (group_vars sol (team_id avoided_team)
                     (group_enum interviewer_group) = false) as Hzero.
  { unfold _add_interviewer_constraints in Hiv.
    rewrite forallb_forall in Hiv.
    assert (In (interviewer_id, avoided_teams)
               (map_to_list (interviewer_avoidance constraints))) as Hpair.
    { by apply list_elem_of_In, elem_of_map_to_list. }
    specialize (Hiv _ Hpair). cbn beta iota in Hiv.
    rewrite Hgroup, bool_decide_eq_false_2 in Hiv by done.
    rewrite forallb_forall in Hiv.
    specialize (Hiv _ (proj1 (list_elem_of_In _ _) Hin)).
    destruct (find (λ t, bool_decide (team_id t = team_id avoided_team)) teams)
      as [first|] eqn:Hfind.
    - apply find_some in Hfind as [_ Hid].
      apply bool_decide_eq_true in Hid. rewrite <-Hid.
      by apply negb_true_iff.
    - apply list_elem_of_In in Hteam.
      pose proof (find_none _ _ Hfind _ Hteam) as Hno. cbn in Hno.
      by rewrite bool_decide_eq_true_2 in Hno. }
  (* constraint 3 ties it to the variables on the group's slots *)
  unfold group_consistency in Hcons. rewrite forallb_forall in Hcons.
  specialize (Hcons _ (proj1 (list_elem_of_In _ _) Hteam)).
  cbn beta in Hcons. rewrite forallb_forall in Hcons.
  assert (In (group_enum interviewer_group) groups) as Hgin.
  { unfold groups. destruct (group_enum interviewer_group); cbn; tauto. }
  specialize (Hcons _ Hgin). cbn zeta in Hcons.
  assert (schedule_vars sol (team_id avoided_team) (slot_id slot)
                        (group_enum interviewer_group)
          ∈ map (λ slot0, schedule_vars sol (team_id avoided_team)
                            (slot_id slot0) (group_enum interviewer_group))
                (filter (λ slot0, group slot0 = group_enum interviewer_group)
                        time_slots)) as Hmem.
  { apply list_elem_of_In, in_map_iff. exists slot. split; [done|].
    apply list_elem_of_In, list_elem_of_filter. done. }
  destruct (map _ (filter _ time_slots)) as [|v vs] eqn:Hvars;
    [by apply elem_of_nil in Hmem|].
  apply bool_decide_eq_true in Hcons. rewrite Hzero in Hcons.
  by apply (sum_vars_zero (v :: vs) _ Hcons).
Qed.


Lemma avoidance_binds_own_group_witness :
  satisfies _generate_default_time_slots cross_group [team1] avoid_A = true
  ∧ schedule_vars cross_group (team_id team1) (slot_id slot0)
                  (group_enum "A") = false.
Proof.
  assert (satisfies _generate_default_time_slots cross_group [team1] avoid_A
          = true) as Hsat by (vm_compute; reflexivity).
  split; [exact Hsat|].
  apply (avoidance_binds_own_group _generate_default_time_slots cross_group
           [team1] avoid_A "iv1" ["t1"] "A" team1 slot0 Hsat).
  - vm_compute. reflexivity.
  - vm_compute. reflexivity.
  - discriminate.
  - apply (bool_decide_unpack _). vm_compute. exact I.
  - apply list_elem_of_singleton. reflexivity.
  - apply (bool_decide_unpack _). vm_compute. exact I.
  - reflexivity.
Defined.

(** ** The list of options *)

Lemma omap_sublist {X Y} (f : X → option Y) (g : Y → X) (l : list X) :
  (∀ x y, f x = Some y → g y = x) → g <$> omap f l `sublist_of` l.
Proof.
  intros Hfg. induction l as [|x l IH]; [done|]. cbn [omap list_omap].
  destruct (f x) as [y|] eqn:Hf.
  - cbn. rewrite (Hfg x y Hf). by apply sublist_skip.
  - by apply sublist_cons.
Qed.

(** [generate_five_options] refuses an empty team list.  Otherwise its
    list follows the order of the five strategies and has at most four
    options: the group-balance strategy never yields one, because setting
    its objective raises; any other strategy yields an option exactly when
    the solver answered OPTIMAL or FEASIBLE for it and the extracted
    schedule list is not empty. *)
Theorem five_options_shape (time_slots : list InterviewSlot)
    (solve : OptimizationStrategy → CpStatus * Solution) (teams : list Team)
    (options : list SchedulingOption) :
  generate_five_options time_slots solve teams = Some options →
  teams ≠ []
  ∧ (λ option, (strategy_type option, option_name option)) <$> options
    `sublist_of` strategies
  ∧ (length options ≤ 4)%nat
  ∧ ∀ strategy name,
      (strategy, name) ∈ strategies →
      (∃ option, option ∈ options ∧ strategy_type option = strategy)
      ↔ strategy ≠ GROUP_BALANCE
        ∧ ((solve strategy).1 = OPTIMAL ∨ (solve strategy).1 = FEASIBLE)
        ∧ _extract_solution time_slots (solve strategy).2 teams ≠ [].
Proof.
  unfold generate_five_options. destruct teams as [|t teams]; [done|].
  intros Heq. apply (inj Some) in Heq. subst options. split; [done|].
  set (f := λ '(strategy, name),
         match _generate_single_option time_slots (t :: teams) strategy name
                 (solve strategy) with
         | Some (Some option) => match schedules option with
                                 | [] => None
                                 | _ => Some option
                                 end
         | Some None => None
         | None => None
         end).
  assert (∀ strategy name option,
            f (strategy, name) = Some option ↔
            option = mkOption name strategy
                       (_extract_solution time_slots (solve strategy).2
                                          (t :: teams))
            ∧ strategy ≠ GROUP_BALANCE
            ∧ ((solve strategy).1 = OPTIMAL ∨ (solve strategy).1 = FEASIBLE)
            ∧ _extract_solution time_slots (solve strategy).2 (t :: teams)
              ≠ []) as Hf.
  { intros strategy name option.
    unfold f, _generate_single_option, _set_objective_function.
    destruct strategy; destruct (solve _).1;
      destruct (_extract_solution time_slots _ (t :: teams));
      cbn; split; try (intros [= <-]); try (intros (-> & ? & [?|?] & ?));
      try done; split_and!; try done; by (left + right). }
  split_and!.
  - apply omap_sublist. intros [strategy name] option Hsome.
    apply Hf in Hsome as (-> & _). done.
  - unfold strategies. cbn [omap list_omap].
    assert (f (GROUP_BALANCE, 4) = None) as -> by reflexivity.
    repeat match goal with
           | |- context [f ?x] => destruct (f x)
           end; cbn; lia.
  - intros strategy name Hin. split.
    + intros (option & Hopt & Hst).
      apply list_elem_of_omap in Hopt as ([s n] & _ & Hsome).
      apply Hf in Hsome as (-> & ? & ? & ?). cbn in Hst. by subst.
    + intros (Hgb & Hstatus & Hne).
      exists (mkOption name strategy
                (_extract_solution time_slots (solve strategy).2 (t :: teams))).
      split; [|done]. apply list_elem_of_omap. exists (strategy, name).
      split; [done|]. by apply Hf.
Qed.

(** Two teams on the single slot, solved for every strategy: four options,
    none for the group-balance strategy. *)
Lemma five_options_shape_witness :
  ∃ options,
    generate_five_options one_slot (λ _, (OPTIMAL, both_groups))
                          [team1; team2] = Some options
    ∧ strategy_type <$> options
      = [FIRST_PREFERENCE; TIME_DISTRIBUTION; MORNING_AFTERNOON_BALANCE;
         INTERVIEWER_CONSTRAINTS]
    ∧ (length options ≤ 4)%nat.
Proof.
  eexists. split; [reflexivity|]. split; [reflexivity|].
  exact (proj1 (proj2 (proj2
    (five_options_shape one_slot (λ _, (OPTIMAL, both_groups))
       [team1; team2] _ eq_refl)))).
Defined.


(** ** What the capacity constraint does secure *)

Lemma sum_vars_cons v (vars : list bool) :
  sum_vars (v :: vars) = (Nat.b2n v + sum_vars vars)%nat.
Proof. done. Qed.

Lemma sum_vars_two (vars : list bool) i j :
  (sum_vars vars ≤ 1)%nat →
  vars !! i = Some true → vars !! j = Some true → i = j.
Proof.
  revert i j.
  induction vars as [|v vars IH]; intros i j Hsum Hi Hj; [done|].
  rewrite sum_vars_cons in Hsum.
  assert (∀ k, vars !! k = Some true → sum_vars vars ≠ 0) as Hpos.
  { intros k Hk Hzero.
    assert (true = false); [|done].
    apply (sum_vars_zero vars true Hzero). by eapply list_elem_of_lookup_2. }
  destruct i as [|i], j as [|j]; cbn in Hi, Hj.
  - done.
  - inversion Hi; subst v. specialize (Hpos j Hj). cbn [Nat.b2n] in Hsum. lia.
  - inversion Hj; subst v. specialize (Hpos i Hi). cbn [Nat.b2n] in Hsum. lia.
  - f_equal. apply IH; [|done..]. destruct v; cbn [Nat.b2n] in Hsum; lia.
Qed.

(** In an answer that meets the constraints, the variable of one slot and
    one group is set for at most one position of the team list. *)
Theorem capacity_per_slot_and_group time_slots sol teams constraints
    slot group' i j team_i team_j :
  satisfies time_slots sol teams constraints = true →
  slot ∈ time_slots →
  teams !! i = Some team_i → teams !! j = Some team_j →
  schedule_vars sol (team_id team_i) (slot_id slot) group' = true →
  schedule_vars sol (team_id team_j) (slot_id slot) group' = true →
  i = j.
Proof.
  intros Hsat Hslot Hi Hj Hvi Hvj.
  unfold satisfies, _add_basic_constraints in Hsat.
  apply andb_prop in Hsat as [Hsat _].
  apply andb_prop in Hsat as [Hsat _].
  apply andb_prop in Hsat as [Hsat _].
  apply andb_prop in Hsat as [_ Hcap].
  unfold slot_capacity in Hcap. rewrite forallb_forall in Hcap.
  specialize (Hcap _ (proj1 (list_elem_of_In _ _) Hslot)). cbn beta in Hcap.
  rewrite forallb_forall in Hcap.
  assert (In group' groups) as Hg
    by (unfold groups; destruct group'; cbn; tauto).
  specialize (Hcap _ Hg). cbn zeta in Hcap.
  assert (∀ k t, teams !! k = Some t →
                 map (λ team, schedule_vars sol (team_id team) (slot_id slot)
                                group') teams !! k
                 = Some (schedule_vars sol (team_id t) (slot_id slot) group'))
    as Hlook.
  { intros k t Hk. change (map ?f teams) with (f <$> teams).
    by rewrite list_lookup_fmap, Hk. }
  pose proof (Hlook i team_i Hi) as Hli. rewrite Hvi in Hli.
  pose proof (Hlook j team_j Hj) as Hlj. rewrite Hvj in Hlj.
  destruct (map _ teams) as [|v vs] eqn:Hvars; [done|].
  apply bool_decide_eq_true in Hcap.
  exact (sum_vars_two (v :: vs) i j Hcap Hli Hlj).
Qed.

Lemma capacity_per_slot_and_group_witness :
  satisfies one_slot both_groups [team1; team2] default_constraint = true
  ∧ 0 = 0.
Proof.
  assert (satisfies one_slot both_groups [team1; team2] default_constraint
          = true) as Hsat by (vm_compute; reflexivity).
  split; [exact Hsat|].
  apply (capacity_per_slot_and_group one_slot both_groups [team1; team2]
           default_constraint slot0 A 0 0 team1 team1 Hsat).
  - apply list_elem_of_singleton. reflexivity.
  - reflexivity.
  - reflexivity.
  - vm_compute. reflexivity.
  - vm_compute. reflexivity.
Defined.

End ExactFacts.

(** * Facts about schedule_optimizer.py *)
Module OptimizerFacts.
Import ScheduleOptimizer.

(** A team record without its result field. *)
Definition clean (t : Team) : Team := set_assigned_slot None t.

Lemma clean_alter (g : Team → Team) i (l : list Team) :
  (∀ t, clean (g t) = clean t) → clean <$> alter g i l = clean <$> l.
Proof.
  intros Hg. revert i. induction l as [|t l IH]; intros [|i]; csimpl;
    try done.
  - by rewrite Hg.
  - by rewrite IH.
Qed.

(** ** The backtracking search *)

Section Backtrack.

(** The team list the search runs on, without the result fields; the search
    never changes anything else of it. *)
Variable ts : list Team.
Hypothesis ts_names : NoDup (name <$> ts).

Definition roster (st : BT) : Prop := clean <$> bt_teams st = ts.

(** [assigned_teams] holds the names of the teams before [idx]. *)
Definition assigned_below (st : BT) (idx : nat) : Prop :=
  ∀ i t, ts !! i = Some t → name t ∈ bt_assigned st ↔ (i < idx)%nat.

(** Team [i] holds a slot of its own list, and the schedule has the team's
    name at that slot. *)
Definition placed (st : BT) (i : nat) : Prop :=
  ∃ t slot, bt_teams st !! i = Some t ∧ assigned_slot t = Some slot ∧
            slot ∈ available_slots t ∧ bt_schedule st !! slot = Some (name t).

(** [f] gives the teams from [idx] on distinct free slots of their lists. *)
Definition extension (f : string → string) (idx : nat)
    (sched : gmap string string) : Prop :=
  (∀ i t, (idx ≤ i)%nat → ts !! i = Some t →
          f (name t) ∈ available_slots t ∧ sched !! f (name t) = None)
  ∧ (∀ i j t t', (idx ≤ i)%nat → (idx ≤ j)%nat →
                 ts !! i = Some t → ts !! j = Some t' →
                 f (name t) = f (name t') → i = j).

(** What a call for index [idx] leaves behind: on failure the schedule and
    the set of assigned names are as before; on success the teams from [idx]
    on are placed and no earlier entry was touched. *)
Definition post (idx : nat) (st : BT) (r : bool * BT) : Prop :=
  roster r.2
  ∧ (∀ i, (i < idx)%nat → bt_teams r.2 !! i = bt_teams st !! i)
  ∧ (r.1 = false →
     bt_schedule r.2 = bt_schedule st ∧ bt_assigned r.2 = bt_assigned st)
  ∧ (r.1 = true →
     bt_schedule st ⊆ bt_schedule r.2
     ∧ ∀ i, (idx ≤ i < length ts)%nat → placed r.2 i).

Definition complete (idx : nat) (st : BT) (r : bool * BT) : Prop :=
  ∀ f, extension f idx (bt_schedule st) → r.1 = true.

Lemma names_inj i j t t' :
  ts !! i = Some t → ts !! j = Some t' → name t = name t' → i = j.
Proof.
  intros Hi Hj Heq. eapply (NoDup_lookup _ _ _ _ ts_names).
  - by rewrite list_lookup_fmap, Hi.
  - by rewrite list_lookup_fmap, Hj, Heq.
Qed.

Lemma roster_lookup st i t :
  roster st → ts !! i = Some t →
  ∃ t', bt_teams st !! i = Some t' ∧ clean t' = t.
Proof.
  intros <- Hi. rewrite list_lookup_fmap in Hi.
  destruct (bt_teams st !! i) as [t'|]; [|done].
  exists t'. split; [done|]. by inversion Hi.
Qed.

Lemma assigned_below_S st idx team slot :
  ts !! idx = Some (clean team) →
  assigned_below st idx →
  assigned_below
    (mkBT (<[slot := name team]> (bt_schedule st))
          ({[name team]} ∪ bt_assigned st)
          (alter (set_assigned_slot (Some slot)) idx (bt_teams st)))
    (S idx).
Proof.
  intros Hidx Hbelow i t Hi. cbn [bt_assigned].
  rewrite elem_of_union, elem_of_singleton, (Hbelow i t Hi). split.
  - intros [Hname|Hlt]; [|lia].
    assert (i = idx) by (by eapply names_inj). lia.
  - intros Hlt. destruct (decide (i = idx)) as [->|Hne]; [|right; lia].
    left. rewrite Hidx in Hi. by inversion Hi.
Qed.

Lemma extension_S f st idx team :
  ts !! idx = Some (clean team) →
  extension f idx (bt_schedule st) →
  extension f (S idx) (<[f (name team) := name team]> (bt_schedule st)).
Proof.
  intros Hidx [Hav Hinj]. split.
  - intros i t Hle Hi. destruct (Hav i t ltac:(lia) Hi) as [Hin Hfree].
    split; [done|]. rewrite lookup_insert_ne; [done|].
    intros Heq. assert (idx = i); [|lia].
    eapply (Hinj idx i (clean team) t); [lia|lia|done|done|done].
  - intros i j t t' ? ?. apply Hinj; lia.
Qed.

(** The loop over the slots of one team, given what the recursive call
    does. *)
Lemma try_slots_spec (next : BT → bool * BT) idx team :
  ts !! idx = Some (clean team) →
  (∀ st, roster st → assigned_below st (S idx) →
         post (S idx) st (next st) ∧ complete (S idx) st (next st)) →
  ∀ slots st,
    (∀ s, s ∈ slots → s ∈ available_slots team) →
    roster st → assigned_below st idx →
    post idx st (try_slots next idx team slots st)
    ∧ ∀ f, extension f idx (bt_schedule st) → f (name team) ∈ slots →
           (try_slots next idx team slots st).1 = true.
Proof.
  intros Hidx Hnext. induction slots as [|slot rest IH];
    intros st Hsub Hroster Hbelow.
  - cbn [try_slots]. split.
    + split_and!; done.
    + by intros f _ ?%elem_of_nil.
  - assert (name team ∉ bt_assigned st) as Hfresh.
    { intros Hin. apply (Hbelow idx _ Hidx) in Hin. lia. }
    assert (∀ s, s ∈ rest → s ∈ available_slots team) as Hsub'.
    { intros s Hs. apply Hsub. by right. }
    cbn [try_slots]. case_bool_decide as Hfree.
    + set (st1 := mkBT (<[slot := name team]> (bt_schedule st))
                       ({[name team]} ∪ bt_assigned st)
                       (alter (set_assigned_slot (Some slot)) idx
                              (bt_teams st))).
      assert (roster st1) as Hroster1.
      { unfold roster, st1. cbn [bt_teams]. by rewrite clean_alter. }
      assert (assigned_below st1 (S idx)) as Hbelow1
        by (by apply assigned_below_S).
      destruct (Hnext st1 Hroster1 Hbelow1) as [Hpost Hcomplete].
      destruct (next st1) as [ok st2] eqn:Hrun.
      destruct Hpost as (Hroster2 & Hsame & Hfail & Hsucc).
      cbn [fst snd] in *. destruct ok.
      * (* the recursive call succeeded *)
        destruct (Hsucc eq_refl) as [Hsched Hplaced]. split; [|done].
        split_and!; cbn [fst snd]; try done.
        -- intros i Hi. rewrite Hsame by lia. unfold st1. cbn [bt_teams].
           apply list_lookup_alter_ne. lia.
        -- intros _. split.
           ++ etrans; [|exact Hsched]. unfold st1. cbn [bt_schedule].
              by apply insert_subseteq.
           ++ intros i Hi. destruct (decide (i = idx)) as [->|Hne];
                [|apply Hplaced; lia].
              destruct (roster_lookup st idx _ Hroster Hidx)
                as (t & Ht & Hclean).
              exists (set_assigned_slot (Some slot) t), slot.
              split_and!.
              ** rewrite Hsame by lia. unfold st1. cbn [bt_teams].
                 by rewrite list_lookup_alter_eq, Ht.
              ** done.
              ** cbn. replace (available_slots t)
                   with (available_slots team)
                   by (by destruct t, team; inversion Hclean).
                 apply Hsub. by left.
              ** eapply lookup_weaken; [|exact Hsched].
                 unfold st1. cbn [bt_schedule name set_assigned_slot].
                 rewrite lookup_insert_eq.
                 by destruct t, team; inversion Hclean.
      * (* the recursive call failed: undo and go on *)
        destruct (Hfail eq_refl) as [Hsched2 Hassigned2].
        set (st3 := mkBT (delete slot (bt_schedule st2))
                         (bt_assigned st2 ∖ {[name team]})
                         (alter (set_assigned_slot None) idx (bt_teams st2))).
        assert (bt_schedule st3 = bt_schedule st) as Hsched3.
        { unfold st3. cbn [bt_schedule]. rewrite Hsched2. unfold st1.
          cbn [bt_schedule]. by apply delete_insert_id. }
        assert (bt_assigned st3 = bt_assigned st) as Hassigned3.
        { unfold st3. cbn [bt_assigned]. rewrite Hassigned2. unfold st1.
          cbn [bt_assigned]. apply set_eq. intros x.
          rewrite elem_of_difference, elem_of_union, elem_of_singleton.
          split; [tauto|]. intros Hx. split; [by right|]. by intros ->. }
        assert (roster st3) as Hroster3.
        { unfold roster, st3. cbn [bt_teams]. by rewrite clean_alter. }
        assert (assigned_below st3 idx) as Hbelow3.
        { intros i t Hi. rewrite Hassigned3. by apply Hbelow. }
        destruct (IH st3 Hsub' Hroster3 Hbelow3) as [Hpost3 Hcomplete3].
        destruct Hpost3 as (Hr & Hs & Hf & Ht).
        split.
        -- split_and!; try done.
           ++ intros i Hi. rewrite Hs by done. unfold st3. cbn [bt_teams].
              rewrite list_lookup_alter_ne by lia. rewrite Hsame by lia.
              unfold st1. cbn [bt_teams]. apply list_lookup_alter_ne. lia.
           ++ intros Hno. destruct (Hf Hno) as [-> ->]. done.
           ++ intros Hyes. destruct (Ht Hyes) as [Hsub3 Hpl].
              split; [|done]. by rewrite <-Hsched3.
        -- intros f Hext Hin. apply elem_of_cons in Hin as [Heq|Hin].
           ++ exfalso. assert (true = false); [|done].
              rewrite <-(Hcomplete f); [done|].
              unfold st1. cbn [bt_schedule]. rewrite <-Heq.
              by apply extension_S.
           ++ apply (Hcomplete3 f); [|done]. by rewrite Hsched3.
    + destruct (IH st Hsub' Hroster Hbelow) as [Hpost' Hcomplete'].
      split; [done|]. intros f Hext Hin.
      apply elem_of_cons in Hin as [Heq|Hin]; [|by apply (Hcomplete' f)].
      exfalso. destruct Hext as [Hav _].
      destruct (Hav idx _ (le_n _) Hidx) as [_ Hnone].
      cbn in Hnone. rewrite Heq in Hnone. done.
Qed.


(** [backtrack(team_idx)], by induction on the number of teams left. *)
Lemma backtrack_spec fuel :
  ∀ idx st,
    (length ts ≤ idx + fuel)%nat → roster st → assigned_below st idx →
    post idx st (backtrack fuel idx st)
    ∧ complete idx st (backtrack fuel idx st).
Proof.
  induction fuel as [|fuel IH]; intros idx st Hlen Hroster Hbelow.
  - cbn [backtrack].
    destruct (bt_teams st !! idx) as [team|] eqn:Hteam.
    + apply lookup_lt_Some in Hteam.
      rewrite <-Hroster, length_fmap in Hlen. lia.
    + apply lookup_ge_None in Hteam. split; [|done].
      split_and!; try done. intros _. split; [done|].
      intros i Hi. rewrite <-Hroster, length_fmap in Hi. lia.
  - cbn [backtrack].
    destruct (bt_teams st !! idx) as [team|] eqn:Hteam.
    + assert (ts !! idx = Some (clean team)) as Hidx.
      { by rewrite <-Hroster, list_lookup_fmap, Hteam. }
      rewrite bool_decide_eq_false_2.
      2:{ intros Hin. apply (Hbelow idx _ Hidx) in Hin. lia. }
      destruct (try_slots_spec (backtrack fuel (S idx)) idx team Hidx)
        with (slots := available_slots team) (st := st)
        as [Hpost Hcomplete]; try done.
      { intros st' ??. apply IH; [lia|done..]. }
      split; [done|]. intros f Hext. apply (Hcomplete f Hext).
      destruct Hext as [Hav _].
      by destruct (Hav idx _ (le_n _) Hidx) as [? _].
    + apply lookup_ge_None in Hteam. split; [|done].
      split_and!; try done. intros _. split; [done|].
      intros i Hi. rewrite <-Hroster, length_fmap in Hi. lia.
Qed.

End Backtrack.


Lemma names_clean (l : list Team) : name <$> (clean <$> l) = name <$> l.
Proof. rewrite <-list_fmap_compose. by apply list_fmap_ext. Qed.


(** Three teams that all ask for Friday 19:00 first.  The first choices of
    P and Q leave nothing for R; the search has to undo both. *)
Definition three_teams : Scheduler :=
  add_team "R" ["9/12 19:00-19:45"; "9/12 20:30-21:15"] "r@snaac" "010-3"
    (add_team "Q" ["9/12 19:00-19:45"; "9/12 20:30-21:15"] "q@snaac" "010-2"
       (add_team "P" ["9/12 19:00-19:45"; "9/12 19:45-20:30"] "p@snaac"
                 "010-1" (mkScheduler [] ∅))).




(** The run on the three teams: the search succeeds, with P moved to its
    second choice. *)
Lemma backtracking_undoes_first_choices :
  (_backtrack_scheduling three_teams).1 = true
  ∧ (λ t, (name t, assigned_slot t))
      <$> teams (_backtrack_scheduling three_teams).2
    = [("P", Some "9/12 19:45-20:30"); ("Q", Some "9/12 19:00-19:45");
       ("R", Some "9/12 20:30-21:15")].
Proof. split; vm_compute; reflexivity. Qed.


(** ** Every entry of the schedule is a slot the team listed *)

(** Each entry of the schedule names a team of the roster [ts] at a slot of
    that team's list. *)
Definition within_availability (ts : list Team)
    (sched : gmap string string) : Prop :=
  ∀ slot n, sched !! slot = Some n →
            ∃ t, t ∈ ts ∧ name t = n ∧ slot ∈ available_slots t.

Lemma within_availability_insert ts sched slot (t : Team) :
  t ∈ ts → slot ∈ available_slots t →
  within_availability ts sched →
  within_availability ts (<[slot := name t]> sched).
Proof.
  intros Hin Hav Hw slot' n Hlook.
  destruct (decide (slot = slot')) as [->|Hne].
  - rewrite lookup_insert_eq in Hlook. inversion Hlook; subst. by exists t.
  - rewrite lookup_insert_ne in Hlook by done. by apply Hw.
Qed.

Lemma within_availability_delete ts sched slot :
  within_availability ts sched → within_availability ts (delete slot sched).
Proof.
  intros Hw slot' n Hlook. apply lookup_delete_Some in Hlook as [_ Hlook].
  by apply Hw.
Qed.

Lemma first_free_Some slots sched slot :
  first_free slots sched = Some slot → slot ∈ slots ∧ sched !! slot = None.
Proof.
  induction slots as [|s rest IH]; cbn [first_free]; [done|].
  case_bool_decide as Hfree.
  - intros [= <-]. split; [by left|done].
  - intros Hrest. destruct (IH Hrest). split; [by right|done].
Qed.

Lemma greedy_step_within st i :
  within_availability (clean <$> teams st) (schedule st) →
  clean <$> teams (greedy_step st i) = clean <$> teams st
  ∧ within_availability (clean <$> teams st) (schedule (greedy_step st i)).
Proof.
  intros Hw. unfold greedy_step.
  destruct (teams st !! i) as [team|] eqn:Hi; [|done].
  destruct (first_free _ _) as [slot|] eqn:Hfree; [|done].
  apply first_free_Some in Hfree as [Hav _]. cbn [teams schedule]. split.
  - rewrite list_fmap_insert. apply list_insert_id.
    by rewrite list_lookup_fmap, Hi.
  - apply (within_availability_insert _ _ _ (clean team)); [|done..].
    apply list_elem_of_fmap. exists team. split; [done|].
    by eapply list_elem_of_lookup_2.
Qed.

Lemma greedy_within st :
  clean <$> teams (_greedy_scheduling st) = clean <$> teams st
  ∧ within_availability (clean <$> teams st) (schedule (_greedy_scheduling st)).
Proof.
  unfold _greedy_scheduling.
  assert (∀ l st0,
            within_availability (clean <$> teams st0) (schedule st0) →
            clean <$> teams (foldl greedy_step st0 l) = clean <$> teams st0
            ∧ within_availability (clean <$> teams st0)
                (schedule (foldl greedy_step st0 l))) as Hfold.
  { induction l as [|i l IH]; intros st0 Hw; [done|]. cbn [foldl].
    destruct (greedy_step_within st0 i Hw) as [Hr Hw'].
    rewrite <-Hr in Hw'. destruct (IH _ Hw') as [Hr2 Hw2].
    rewrite Hr in Hr2, Hw2. done. }
  apply (Hfold _ (mkScheduler (teams st) ∅)).
  intros slot n Hlook. cbn in Hlook. by rewrite lookup_empty in Hlook.
Qed.

Section BacktrackWithin.

Variable ts : list Team.

Definition kept (st : BT) : Prop :=
  roster ts st ∧ within_availability ts (bt_schedule st).

Lemma try_slots_within (next : BT → bool * BT) idx team :
  clean team ∈ ts →
  (∀ st, kept st → kept (next st).2) →
  ∀ slots st,
    (∀ s, s ∈ slots → s ∈ available_slots team) →
    kept st → kept (try_slots next idx team slots st).2.
Proof.
  intros Hteam Hnext. induction slots as [|slot rest IH];
    intros st Hsub [Hroster Hw]; [done|].
  assert (∀ s, s ∈ rest → s ∈ available_slots team) as Hsub'.
  { intros s Hs. apply Hsub. by right. }
  cbn [try_slots]. case_bool_decide as Hfree; [|by apply IH].
  set (st1 := mkBT _ _ _).
  assert (kept st1) as Hkept1.
  { split.
    - unfold roster, st1. cbn [bt_teams]. by rewrite clean_alter.
    - unfold st1. cbn [bt_schedule].
      apply (within_availability_insert _ _ _ (clean team)); [done| |done].
      apply Hsub. by left. }
  specialize (Hnext st1 Hkept1). destruct (next st1) as [ok st2].
  cbn [snd] in Hnext. destruct ok; [done|].
  apply IH; [done|]. destruct Hnext as [Hroster2 Hw2]. split.
  - unfold roster. cbn [bt_teams]. by rewrite clean_alter.
  - cbn [bt_schedule]. by apply within_availability_delete.
Qed.

Lemma backtrack_within fuel :
  ∀ idx st, kept st → kept (backtrack fuel idx st).2.
Proof.
  induction fuel as [|fuel IH]; intros idx st Hkept; cbn [backtrack];
    destruct (bt_teams st !! idx) as [team|] eqn:Hteam; try done.
  case_bool_decide; [by apply IH|].
  apply try_slots_within; try done.
  - destruct Hkept as [<- _]. apply list_elem_of_fmap. exists team.
    split; [done|]. by eapply list_elem_of_lookup_2.
  - intros st' ?. by apply IH.
Qed.

End BacktrackWithin.

Lemma within_availability_perm ts1 ts2 sched :
  ts1 ≡ₚ ts2 → within_availability ts1 sched → within_availability ts2 sched.
Proof.
  intros Hperm Hw slot n Hlook. destruct (Hw slot n Hlook) as (t & Hin & ?).
  exists t. split; [|done]. by rewrite <-Hperm.
Qed.

Lemma backtrack_scheduling_within st :
  within_availability (clean <$> teams st)
                      (schedule (_backtrack_scheduling st).2).
Proof.
  unfold _backtrack_scheduling. cbv zeta.
  set (sorted := sorted_by_key (λ t, length (available_slots t)) (teams st)).
  assert (clean <$> sorted ≡ₚ clean <$> teams st) as Hperm.
  { unfold sorted. by rewrite sorted_by_key_perm. }
  pose proof (backtrack_within (clean <$> sorted) (length sorted) 0
                (mkBT ∅ ∅ sorted)) as Hkept.
  destruct (backtrack _ _ _) as [ok r]. cbn [snd] in Hkept.
  destruct Hkept as [Hroster Hw].
  { split; [done|]. intros slot n Hlook. cbn in Hlook.
    by rewrite lookup_empty in Hlook. }
  destruct ok; cbn [snd schedule].
  - by eapply within_availability_perm.
  - destruct (greedy_within (mkScheduler (bt_teams r) (bt_schedule r)))
      as [_ Hg]. cbn [teams] in Hg. rewrite Hroster in Hg.
    by eapply within_availability_perm.
Qed.


(** When the teams have distinct names and the search of
    [_backtrack_scheduling] reports success, every team is placed on a slot
    of its own list, the schedule has the team's name at that slot, and no
    two teams of different names hold the same slot. *)
Theorem backtracking_success_sound (st : Scheduler) :
  NoDup (name <$> teams st) →
  (_backtrack_scheduling st).1 = true →
  (∀ t, t ∈ teams (_backtrack_scheduling st).2 →
        ∃ slot, assigned_slot t = Some slot ∧ slot ∈ available_slots t ∧
                schedule (_backtrack_scheduling st).2 !! slot
                = Some (name t))
  ∧ ∀ t1 t2 slot,
      t1 ∈ teams (_backtrack_scheduling st).2 →
      t2 ∈ teams (_backtrack_scheduling st).2 →
      assigned_slot t1 = Some slot → assigned_slot t2 = Some slot →
      name t1 = name t2.
Proof.
  intros Hnd. unfold _backtrack_scheduling. cbv zeta.
  set (sorted := sorted_by_key (λ t, length (available_slots t)) (teams st)).
  assert (sorted ≡ₚ teams st) as Hperm by apply sorted_by_key_perm.
  set (ts := clean <$> sorted).
  assert (NoDup (name <$> ts)) as Hnames.
  { unfold ts. by rewrite names_clean, Hperm. }
  destruct (backtrack_spec ts Hnames (length sorted) 0 (mkBT ∅ ∅ sorted))
    as [Hpost _].
  { unfold ts. rewrite length_fmap. lia. }
  { done. }
  { intros i t _. cbn [bt_assigned]. rewrite elem_of_empty. lia. }
  destruct (backtrack _ _ _) as [[] r]; [|discriminate]. intros _.
  destruct Hpost as (Hroster & _ & _ & Hsucc). cbn [fst snd] in *.
  destruct (Hsucc eq_refl) as [_ Hplaced]. cbn [teams schedule].
  assert (∀ t, t ∈ bt_teams r →
               ∃ slot, assigned_slot t = Some slot ∧ slot ∈ available_slots t
                       ∧ bt_schedule r !! slot = Some (name t)) as Hall.
  { intros t Hin. apply list_elem_of_lookup_1 in Hin as [i Hi].
    destruct (Hplaced i) as (t' & slot & Hi' & ? & ? & ?).
    { split; [lia|]. rewrite <-Hroster, length_fmap.
      by eapply lookup_lt_Some. }
    rewrite Hi in Hi'. inversion Hi'; subst t'. by exists slot. }
  split; [done|]. intros t1 t2 slot H1 H2 Hs1 Hs2.
  destruct (Hall t1 H1) as (s1 & Hs1' & _ & Hn1).
  destruct (Hall t2 H2) as (s2 & Hs2' & _ & Hn2).
  congruence.
Qed.

Lemma backtracking_success_sound_witness :
  NoDup (name <$> teams three_teams)
  ∧ (_backtrack_scheduling three_teams).1 = true
  ∧ ∀ t, t ∈ teams (_backtrack_scheduling three_teams).2 →
         ∃ slot, assigned_slot t = Some slot ∧ slot ∈ available_slots t ∧
                 schedule (_backtrack_scheduling three_teams).2 !! slot
                 = Some (name t).
Proof.
  assert (NoDup (name <$> teams three_teams)) as Hnd.
  { apply (bool_decide_unpack _). vm_compute. exact I. }
  assert ((_backtrack_scheduling three_teams).1 = true) as Hok
    by (vm_compute; reflexivity).
  split; [exact Hnd|]. split; [exact Hok|].
  exact (proj1 (backtracking_success_sound three_teams Hnd Hok)).
Defined.




End OptimizerFacts.

(** * Placements and declared availability, engine by engine *)
Module Containment.

(** C2, as the code has it.  The engines that take availability lists keep
    to them.  After the two-track greedy run every team record that holds a
    slot holds one of the team's own list.  Every entry of the schedule the
    optimizer returns is a slot that a team of that name listed; the team
    records the optimizer leaves behind keep to the lists as well when the
    iteration cap is positive, the list is not empty and the names are
    distinct and not empty (the restoration goes by name).  Every entry of
    the schedule returned by the single-track greedy engine and by the
    backtracking search, fallback included, is a slot that a team of that
    name listed.  The exact solver takes no availability list. *)
Theorem placements_within_availability
    (set_order : list AdvancedScheduler.Label → list AdvancedScheduler.Label)
    (shuffle : nat → list AdvancedScheduler.Team → list AdvancedScheduler.Team)
    (max_iterations : nat) (two_track : AdvancedScheduler.Scheduler)
    (single_track : ScheduleOptimizer.Scheduler) :
  (∀ i l, shuffle i l ≡ₚ l) →
  (∀ t slot,
     t ∈ AdvancedScheduler.teams
           (AdvancedScheduler.schedule_interviews_continuous set_order
              two_track) →
     AdvancedScheduler.assigned_slot t = Some slot →
     slot ∈ AdvancedScheduler.available_slots t)
  ∧ (∀ schedule slot n,
       (AdvancedScheduler.optimize_schedule set_order shuffle max_iterations
          two_track).2 = Some schedule →
       AdvancedScheduler.sched_A schedule !! slot = Some n
       ∨ AdvancedScheduler.sched_B schedule !! slot = Some n →
       ∃ t, t ∈ AdvancedScheduler.teams two_track
            ∧ AdvancedScheduler.name t = n
            ∧ slot ∈ AdvancedScheduler.available_slots t)
  ∧ ((0 < max_iterations)%nat →
     AdvancedScheduler.teams two_track ≠ [] →
     NoDup (AdvancedScheduler.name <$> AdvancedScheduler.teams two_track) →
     EmptyString
       ∉ AdvancedScheduler.name <$> AdvancedScheduler.teams two_track →
     ∀ t slot,
       t ∈ AdvancedScheduler.teams
             (AdvancedScheduler.optimize_schedule set_order shuffle
                max_iterations two_track).1 →
       AdvancedScheduler.assigned_slot t = Some slot →
       slot ∈ AdvancedScheduler.available_slots t)
  ∧ (∀ slot n,
       ScheduleOptimizer.schedule
         (ScheduleOptimizer._greedy_scheduling single_track) !! slot
       = Some n →
       ∃ t, t ∈ ScheduleOptimizer.teams single_track
            ∧ ScheduleOptimizer.name t = n
            ∧ slot ∈ ScheduleOptimizer.available_slots t)
  ∧ (∀ slot n,
       ScheduleOptimizer.schedule
         (ScheduleOptimizer._backtrack_scheduling single_track).2 !! slot
       = Some n →
       ∃ t, t ∈ ScheduleOptimizer.teams single_track
            ∧ ScheduleOptimizer.name t = n
            ∧ slot ∈ ScheduleOptimizer.available_slots t).
Proof.
  intros Hperm.
  assert (∀ sched,
            OptimizerFacts.within_availability
              (OptimizerFacts.clean <$> ScheduleOptimizer.teams single_track)
              sched →
            ∀ slot n, sched !! slot = Some n →
              ∃ t, t ∈ ScheduleOptimizer.teams single_track
                   ∧ ScheduleOptimizer.name t = n
                   ∧ slot ∈ ScheduleOptimizer.available_slots t) as Hclean.
  { intros sched Hw slot n Hlook.
    destruct (Hw slot n Hlook) as (t' & Hin & Hname & Hav).
    apply list_elem_of_fmap in Hin as (t & -> & Hin). by exists t. }
  split_and!.
  - intros t slot. apply AdvancedFacts.greedy_containment.
  - intros schedule slot n.
    by apply AdvancedFacts.optimizer_returned_within.
  - intros Hmax Hne Hnd Hnames t slot.
    by apply AdvancedFacts.optimizer_containment.
  - apply Hclean. apply OptimizerFacts.greedy_within.
  - apply Hclean. apply OptimizerFacts.backtrack_scheduling_within.
Qed.

Lemma placements_within_availability_witness :
  (∀ (i : nat) (l : list AdvancedScheduler.Team),
     AdvancedFacts.reverse_after_first i l ≡ₚ l)
  ∧ ∀ slot n,
      ScheduleOptimizer.schedule
        (ScheduleOptimizer._backtrack_scheduling
           OptimizerFacts.three_teams).2 !! slot = Some n →
      ∃ t, t ∈ ScheduleOptimizer.teams OptimizerFacts.three_teams
           ∧ ScheduleOptimizer.name t = n
           ∧ slot ∈ ScheduleOptimizer.available_slots t.
Proof.
  split; [exact AdvancedFacts.reverse_after_first_perm|].
  exact (proj2 (proj2 (proj2 (proj2
    (placements_within_availability AdvancedScheduler.first_seen_order
       AdvancedFacts.reverse_after_first 2 AdvancedFacts.roster_gap
       OptimizerFacts.three_teams
       AdvancedFacts.reverse_after_first_perm))))).
Defined.

(** A team of the exact solver that asks for 10:00 to 10:30 on any day. *)
Definition late_team : ExactSolver.Team :=
  ExactSolver.mkTeam "t1" "Team 1" [Some (600, 630)].

(** The answer that puts the team on the variable of group A of the first
    slot, 09:00 to 09:30 on the first day. *)
Definition first_slot : ExactSolver.Solution :=
  ExactSolver.mkSolution
    (λ id slot g, bool_decide (slot = 0)
                  && match g with
                     | ExactSolver.A => true
                     | ExactSolver.B => false
                     end)
    (λ _ _, false)
    (λ id g, match g with ExactSolver.A => true | ExactSolver.B => false end).

(** C2, the input on which the claim fails.  The exact solver's team record
    declares no availability, only time preferences, and those enter the
    model as an upper bound on a preference variable, never as a
    restriction of the slots.  The answer that places the team at 09:00
    meets every constraint, although the team asked for 10:00 to 10:30:
    the slot it gets is none of the slots that match its preference. *)
Lemma exact_solver_ignores_preferences :
  ExactSolver.satisfies ExactSolver._generate_default_time_slots first_slot
    [late_team] ExactSolver.default_constraint = true
  ∧ (λ s, (ExactSolver.slot_id (ExactSolver.interview_slot s),
           ExactSolver.start_time (ExactSolver.interview_slot s)))
      <$> ExactSolver._extract_solution
            ExactSolver._generate_default_time_slots first_slot [late_team]
    = [(0, 540)]
  ∧ bool_decide
      (0 ∈ ExactSolver.slot_id
             <$> ExactSolver._find_matching_slots
                   ExactSolver._generate_default_time_slots
                   (Some (600, 630)))
    = false.
Proof. split_and!; vm_compute; reflexivity. Qed.

End Containment.

(** * advanced_scheduler.py: the engine that follows the teams' own order *)
Module MaxTeams.
Import AdvancedScheduler AdvancedFacts.


Section WithSetOrder.

Variable set_order : list Label → list Label.




End WithSetOrder.




Section Facts.

Variable set_order : list Label → list Label.







End Facts.

End MaxTeams.

(** * Reports and queries *)
Module Reports.

(** ** core/models.py *)
Section Models.
Import ExactSolver.

(** [SchedulingOption.total_teams] *)
Definition total_teams (option : SchedulingOption) : nat :=
  length (schedules option).

(** [SchedulingOption.group_distribution]: the dictionary with the two keys
    of group A and group B, as the pair of its values. *)
Definition group_distribution (option : SchedulingOption) : nat * nat :=
  foldl (λ distribution schedule,
           match group (interview_slot schedule) with
           | A => (S distribution.1, distribution.2)
           | B => (distribution.1, S distribution.2)
           end)
        (0, 0) (schedules option).

(** [InterviewConstraint.get_avoided_teams_for_group]; [set_order] is the
    order in which [list(set(...))] yields the distinct elements. *)
Definition get_avoided_teams_for_group (set_order : list string → list string)
    (constraints : InterviewConstraint) (group : string) : list string :=
  set_order
    (concat
       (map (λ '(interviewer_id, teams),
               if bool_decide
                    (interviewer_groups constraints !! interviewer_id
                     = Some group)
               then teams else [])
            (map_to_list (interviewer_avoidance constraints)))).

(** The two counts of [group_distribution] are together the number of
    schedule entries. *)
Theorem group_distribution_total (option : SchedulingOption) :
  ((group_distribution option).1 + (group_distribution option).2
   = total_teams option)%nat.
Proof.
  unfold group_distribution, total_teams.
  assert (∀ l a b,
            let r := foldl (λ distribution schedule,
                              match group (interview_slot schedule) with
                              | A => (S distribution.1, distribution.2)
                              | B => (distribution.1, S distribution.2)
                              end) (a, b) l in
            (r.1 + r.2 = a + b + length l)%nat) as Hfold.
  { induction l as [|schedule l IH]; intros a b; cbn [foldl length].
    - cbn. lia.
    - destruct (group (interview_slot schedule)); cbn [fst snd];
        cbv zeta in IH; rewrite IH; lia. }
  specialize (Hfold (schedules option) 0 0). cbv zeta in Hfold. lia.
Qed.

(** [get_avoided_teams_for_group] lists, without repetition, exactly the
    teams avoided by at least one interviewer who is assigned to the given
    group. *)
Theorem avoided_teams_for_group (set_order : list string → list string)
    (constraints : InterviewConstraint) (group : string) :
  (∀ xs, NoDup (set_order xs)) →
  (∀ xs x, x ∈ set_order xs ↔ x ∈ xs) →
  NoDup (get_avoided_teams_for_group set_order constraints group)
  ∧ ∀ team_id,
      team_id ∈ get_avoided_teams_for_group set_order constraints group
      ↔ ∃ interviewer_id teams,
          interviewer_avoidance constraints !! interviewer_id = Some teams
          ∧ interviewer_groups constraints !! interviewer_id = Some group
          ∧ team_id ∈ teams.
Proof.
  intros Hnd Helem. unfold get_avoided_teams_for_group. split; [apply Hnd|].
  intros team_id. rewrite Helem.
  assert (∀ l : list (string * list string),
            team_id ∈ concat
              (map (λ '(interviewer_id, teams),
                      if bool_decide
                           (interviewer_groups constraints !! interviewer_id
                            = Some group)
                      then teams else []) l)
            ↔ ∃ interviewer_id teams,
                (interviewer_id, teams) ∈ l
                ∧ interviewer_groups constraints !! interviewer_id = Some group
                ∧ team_id ∈ teams) as Hconcat.
  { induction l as [|[iv ts] l IH]; cbn [map concat].
    - split; [by intros ?%elem_of_nil|].
      by intros (? & ? & ?%elem_of_nil & _).
    - rewrite elem_of_app, IH. split.
      + intros [Hin|(iv' & ts' & Hin & ? & ?)].
        * case_bool_decide; [|by apply elem_of_nil in Hin].
          exists iv, ts. split_and!; [by left|done..].
        * exists iv', ts'. split_and!; [by right|done..].
      + intros (iv' & ts' & Hin & Hg & Hmem).
        apply elem_of_cons in Hin as [[= -> ->]|Hin].
        * left. by rewrite bool_decide_eq_true_2.
        * right. by exists iv', ts'. }
  rewrite Hconcat. split.
  - intros (iv & ts & Hin & ? & ?). exists iv, ts.
    split_and!; [by apply elem_of_map_to_list|done..].
  - intros (iv & ts & Hin & ? & ?). exists iv, ts.
    split_and!; [by apply elem_of_map_to_list|done..].
Qed.

Lemma avoided_teams_for_group_witness :
  (∀ xs : list string, NoDup (remove_dups xs))
  ∧ NoDup (get_avoided_teams_for_group remove_dups ExactFacts.avoid_A "A").
Proof.
  split; [exact NoDup_remove_dups|].
  exact (proj1 (avoided_teams_for_group remove_dups ExactFacts.avoid_A "A"
                  NoDup_remove_dups elem_of_remove_dups)).
Defined.

End Models.

(** ** schedule_optimizer.py *)
Section SingleTrack.
Import ScheduleOptimizer.

(** [get_unassigned_teams]: the names of all teams minus the names of the
    teams with a slot, as a list; [set_order] is the order in which
    [list(...)] yields the elements of the set. *)
Definition get_unassigned_teams (set_order : gset string → list string)
    (st : Scheduler) : list string :=
  let assigned : gset string :=
    list_to_set (name <$> filter (λ t, truthy (assigned_slot t) = true)
                                 (teams st)) in
  let all_teams : gset string := list_to_set (name <$> teams st) in
  set_order (all_teams ∖ assigned).

(** A name is reported as unassigned exactly when it is the name of a team
    and no team of that name holds a slot: of two teams with the same name,
    one with a slot hides the other. *)
Theorem unassigned_teams_by_name (set_order : gset string → list string)
    (st : Scheduler) (n : string) :
  (∀ X x, x ∈ set_order X ↔ x ∈ X) →
  n ∈ get_unassigned_teams set_order st
  ↔ (∃ t, t ∈ teams st ∧ name t = n)
    ∧ ∀ t, t ∈ teams st → name t = n → truthy (assigned_slot t) = false.
Proof.
  intros Helem. unfold get_unassigned_teams. cbv zeta.
  rewrite Helem, elem_of_difference, !elem_of_list_to_set,
    !list_elem_of_fmap.
  split.
  - intros [(t & -> & Hin) Hnot]. split; [by exists t|].
    intros t' Hin' Hname. destruct (truthy (assigned_slot t')) eqn:Ht; [|done].
    exfalso. apply Hnot. exists t'. split; [done|].
    by apply list_elem_of_filter.
  - intros [(t & Hin & <-) Hnone]. split; [by exists t|].
    intros (t' & Hname & [Htruthy Hin']%list_elem_of_filter).
    rewrite (Hnone t' Hin') in Htruthy; [done|by symmetry].
Qed.

Lemma unassigned_teams_by_name_witness :
  (∀ (X : gset string) x, x ∈ elements X ↔ x ∈ X)
  ∧ ("P" ∈ get_unassigned_teams elements OptimizerFacts.three_teams
     ↔ (∃ t, t ∈ teams OptimizerFacts.three_teams ∧ name t = "P")
       ∧ ∀ t, t ∈ teams OptimizerFacts.three_teams → name t = "P" →
              truthy (assigned_slot t) = false).
Proof.
  split; [intros X x; apply elem_of_elements|].
  apply unassigned_teams_by_name. intros X x. apply elem_of_elements.
Defined.

End SingleTrack.

End Reports.
